(** * n8n-mcp-server: registry cache, similarity matcher, response budgeter

    A shallow embedding of [build/node-validator.js] (class [NodeValidator])
    and of the response-size helpers of the server ([estimateTokenCount],
    [truncateResponse], [truncateExecutionItem]), with the properties of
    the specification that are about them.

    Modelling conventions.
    - A JavaScript string is a [string]: a sequence of code units below 256.
      [toLowerCase] is the Unicode lower-casing restricted to that range.
    - A JavaScript number that the code computes with is an integer or a
      quotient of two small integers.  Such numbers are modelled exactly
      ([nat], [Z], [Q]); the non-finite results of a division by zero are a
      separate case ([None] in [calculate_similarity]).  IEEE rounding is
      monotone and keeps apart the quotients that occur for strings of any
      realistic length, and [1 - 2/5] rounds to the same double as [0.6], so
      every comparison the code makes has the outcome computed here.
    - [Date.now()] and the answer of the remote end are inputs of the model.
    - The first part of the file holds the definitions, the second part the
      lemmas and theorems. *)

From Stdlib Require Import List String Ascii ZArith QArith Lia Lqa Bool Arith.
From Stdlib Require Import DecimalString.
Import ListNotations.

Close Scope Q_scope.
Open Scope string_scope.
Open Scope list_scope.
Open Scope nat_scope.

(* ================================================================== *)
(** * Part I: definitions                                              *)
(* ================================================================== *)

(** ** Loops and partial reads *)

(** [for_loop n i body s] runs [body i], [body (i+1)], ... [n] times,
    threading the state, and stops at the first failure.  The JavaScript
    loop [for (let i = lo; i <= hi; i++)] is [for_loop (hi + 1 - lo) lo]. *)
Fixpoint for_loop {St : Type} (n i : nat) (body : nat -> St -> option St) (s : St)
  : option St :=
  match n with
  | O => Some s
  | S n' =>
      match body i s with
      | Some s' => for_loop n' (S i) body s'
      | None => None
      end
  end.

Definition bind {A B : Type} (x : option A) (f : A -> option B) : option B :=
  match x with
  | Some a => f a
  | None => None
  end.

Notation "x <- e ;; k" := (bind e (fun x => k))
  (at level 61, e at next level, right associativity).

(** ** Strings *)

(** Lower-casing of one code unit: [A-Z] and the Latin-1 capitals
    (0xC0-0xDE except the multiplication sign 0xD7) move up by 32. *)
Definition lower_unit (c : ascii) : ascii :=
  let n := nat_of_ascii c in
  if ((65 <=? n) && (n <=? 90))
     || ((192 <=? n) && (n <=? 222) && negb (n =? 215))
  then ascii_of_nat (n + 32)
  else c.

Fixpoint toLowerCase (s : string) : string :=
  match s with
  | EmptyString => EmptyString
  | String c r => String (lower_unit c) (toLowerCase r)
  end.

Module Similarity.

(** ** The distance matrix of [levenshtein_distance]

    [matrix] is an array of rows.  A read outside a row gives [undefined]
    and an assignment one past the end of an array extends it; an
    assignment further out would leave holes.  [None] stands for a read of
    a missing cell or row and for an assignment that would leave a hole;
    the correctness lemma shows that neither occurs. *)

Definition Matrix := list (list nat).

Definition read (m : Matrix) (i j : nat) : option nat :=
  row <- nth_error m i ;; nth_error row j.

Definition assign {A : Type} (l : list A) (i : nat) (v : A) : option (list A) :=
  if i <? List.length l then Some (firstn i l ++ v :: skipn (S i) l)
  else if i =? List.length l then Some (l ++ [v])
  else None.

(** [matrix[i][j] = v] *)
Definition write (m : Matrix) (i j v : nat) : option Matrix :=
  row <- nth_error m i ;;
  row' <- assign row j v ;;
  assign m i row'.

(** [a[i - 1] === b[j - 1] ? 0 : 1] *)
Definition cost_at (a b : string) (i j : nat) : nat :=
  match String.get (i - 1) a, String.get (j - 1) b with
  | Some x, Some y => if Ascii.eqb x y then 0 else 1
  | None, None => 0
  | _, _ => 1
  end.

Definition fill_cell (a b : string) (i j : nat) (m : Matrix) : option Matrix :=
  up <- read m (i - 1) j ;;
  left <- read m i (j - 1) ;;
  diag <- read m (i - 1) (j - 1) ;;
  write m i j (Nat.min (up + 1) (Nat.min (left + 1) (diag + cost_at a b i j))).

Definition levenshtein_distance (a b : string) : option nat :=
  m0 <- for_loop (String.length a + 1) 0 (fun i m => assign m i [i]) [] ;;
  m1 <- for_loop (String.length b + 1) 0 (fun j m => write m 0 j j) m0 ;;
  m2 <- for_loop (String.length a) 1
          (fun i m => for_loop (String.length b) 1 (fun j m' => fill_cell a b i j m') m)
          m1 ;;
  read m2 (String.length a) (String.length b).

(** ** [calculate_similarity]

    [1 - distance / max_length].  The result is [None] when it is not a
    finite number: [0 / 0] is NaN (two empty strings), and a distance that
    is not a number would give NaN as well.  Every [>] test against NaN is
    false. *)
Definition calculate_similarity (a b : string) : option Q :=
  let s1 := toLowerCase a in
  let s2 := toLowerCase b in
  distance <- levenshtein_distance s1 s2 ;;
  let max_length := Nat.max (String.length s1) (String.length s2) in
  if max_length =? 0 then None
  else Some (1 - inject_Z (Z.of_nat distance) / inject_Z (Z.of_nat max_length))%Q.

(** The similarity threshold [0.6]. *)
Definition threshold : Q := (6 # 10)%Q.

(** [score > x] for a score that may be NaN. *)
Definition score_gt (score : option Q) (x : Q) : bool :=
  match score with
  | Some s => negb (Qle_bool s x)
  | None => false
  end.

(** One iteration of the loop of [find_similar_node_type]; the state is
    [(best_match, best_score)]. *)
Definition consider (node_type : string) (st : option string * Q)
  (existing_type : string) : option string * Q :=
  let score := calculate_similarity node_type existing_type in
  if score_gt score (snd st) && score_gt score threshold
  then (Some existing_type, match score with Some s => s | None => snd st end)
  else st.

(** [find_similar_node_type] over the keys of the registry, in iteration
    order. *)
Definition find_similar (node_type : string) (keys : list string) : option string :=
  fst (fold_left (consider node_type) keys (None, 0%Q)).

(** ** Edit distance, as the specification words it *)

(** [lev s t]: the classic recurrence on the first characters. *)
Fixpoint lev (s t : list ascii) {struct s} : nat :=
  match s with
  | [] => List.length t
  | a :: s' =>
      (fix lev_row (t : list ascii) : nat :=
         match t with
         | [] => List.length s
         | b :: t' =>
             Nat.min (lev s' t + 1)
               (Nat.min (lev_row t' + 1)
                  (lev s' t' + (if Ascii.eqb a b then 0 else 1)))
         end) t
  end.

(** One single-character edit: an insertion, a deletion or a substitution
    anywhere in the string. *)
Inductive one_edit : list ascii -> list ascii -> Prop :=
| edit_insert : forall c t, one_edit t (c :: t)
| edit_delete : forall c t, one_edit (c :: t) t
| edit_substitute : forall c c' t, one_edit (c :: t) (c' :: t)
| edit_later : forall c s t, one_edit s t -> one_edit (c :: s) (c :: t).

(** [edits s t n]: [n] single-character edits turn [s] into [t]. *)
Inductive edits : list ascii -> list ascii -> nat -> Prop :=
| edits_done : forall s, edits s s 0
| edits_step : forall s t u n, one_edit s t -> edits t u n -> edits s u (S n).

(** [d] is the edit distance of [s] and [t]: the least number of
    single-character edits that turn [s] into [t]. *)
Definition edit_distance (s t : string) (d : nat) : Prop :=
  edits (list_ascii_of_string s) (list_ascii_of_string t) d /\
  forall n, edits (list_ascii_of_string s) (list_ascii_of_string t) n -> d <= n.

(** ** The matrix the loops of [levenshtein_distance] build

    [prefix_dist la lb i j] is the value the cell [matrix[i][j]] is meant
    to hold: the distance of the first [i] characters of [a] and the first
    [j] characters of [b]. *)
Definition prefix_dist (la lb : list ascii) (i j : nat) : nat :=
  lev (firstn i la) (firstn j lb).

(** The first [n] cells of row [i]. *)
Definition row_upto (la lb : list ascii) (i n : nat) : list nat :=
  map (prefix_dist la lb i) (seq 0 n).

(** Rows [i .. i+n-1] as the first loop leaves them: [[k]]. *)
Definition stub_rows (i n : nat) : Matrix :=
  map (fun k => [k]) (seq i n).

(** The matrix when rows [0 .. i-1] are filled and row [i] holds its first
    [j] cells. *)
Definition matrix_at (la lb : list ascii) (i j : nat) : Matrix :=
  map (fun k => row_upto la lb k (List.length lb + 1)) (seq 0 i)
  ++ row_upto la lb i j :: stub_rows (i + 1) (List.length la - i).

(** ** The state of the loop of [find_similar_node_type]

    [best_so_far q seen st]: after the keys [seen], the pair
    [(best_match, best_score)] is [st]. *)
Definition best_so_far (q : string) (seen : list string) (st : option string * Q)
  : Prop :=
  match fst st with
  | None =>
      snd st = 0%Q /\
      forall c, In c seen -> score_gt (calculate_similarity q c) threshold = false
  | Some c =>
      exists before after,
        seen = before ++ c :: after /\
        calculate_similarity q c = Some (snd st) /\
        (threshold < snd st)%Q /\
        (forall c' s', In c' before ->
           calculate_similarity q c' = Some s' -> (s' < snd st)%Q) /\
        (forall c' s', In c' after ->
           calculate_similarity q c' = Some s' -> (s' <= snd st)%Q)
  end.

End Similarity.

(** ** JavaScript values

    The values that reach the code as parsed JSON, and [undefined], which
    the code produces itself when it reads a property that is not there.
    Numbers are the integers, written in decimal (as JavaScript writes
    them up to 21 digits).  An object lists its properties in enumeration
    order. *)
#[warnings="-register-all"]
Inductive value : Type :=
| JUndefined
| JNull
| JBool (b : bool)
| JNum (n : Z)
| JStr (s : string)
| JArr (items : list value)
| JObj (props : list (string * value)).

(** ** Conversion to a string

    [String(v)], as [Array.prototype.join] applies it to the elements of
    an array: [null] and [undefined] elements give the empty string, an
    array gives its own elements joined with a comma, and an object gives
    [[object Object]]. *)
Module Conversion.

Fixpoint to_string (v : value) {struct v} : string :=
  match v with
  | JUndefined => "undefined"
  | JNull => "null"
  | JBool b => if b then "true" else "false"
  | JNum n => NilZero.string_of_int (Z.to_int n)
  | JStr s => s
  | JArr items =>
      String.concat ","
        ((fix elements (l : list value) : list string :=
            match l with
            | [] => []
            | x :: r =>
                match x with
                | JUndefined | JNull => ""
                | _ => to_string x
                end :: elements r
            end) items)
  | JObj _ => "[object Object]"
  end.

Definition element_text (x : value) : string :=
  match x with
  | JUndefined | JNull => ""
  | _ => to_string x
  end.

(** [items.join(sep)] *)
Definition array_join (sep : string) (items : list value) : string :=
  String.concat sep (map element_text items).

End Conversion.

Module Registry.

(** ** The remote catalog *)

Module Remote.

(** One object of [types/nodes.json], with the fields the code reads.
    [name] and [displayName] are strings when they are present, as the
    catalog delivers them, and [None] when they are absent.
    [description] and [version] are copied without being inspected, and
    [group] is handed to [?.join], which works on arrays only: the three
    are arbitrary values, [JUndefined] when the property is absent. *)
Record Node : Type := {
  name : option string;
  displayName : option string;
  description : value;
  group : value;
  version : value
}.

End Remote.

(** The value of one property of the payload, as the loop body meets it:
    an object (a number, a string or a boolean has no [name] and fares as
    an object without one), or [null], on which reading [node.name]
    throws. *)
Inductive Entry : Type :=
| Described (node : Remote.Node)
| Unreadable.

(** What [response.json()] resolves to: either something over which the
    test [data && typeof data === 'object'] fails, or an object, given by
    its properties in [for ... in] order. *)
Inductive Payload : Type :=
| NotAnObject
| Object (entries : list (string * Entry)).

(** A payload all of whose properties are objects. *)
Definition catalog (nodes : list (string * Remote.Node)) : Payload :=
  Object (map (fun entry => (fst entry, Described (snd entry))) nodes).

(** How the remote end answers [fetch]: the request itself rejects, the
    response is not [ok], [response.json()] rejects, or it resolves. *)
Inductive FetchOutcome : Type :=
| NetworkError
| HttpError
| InvalidJson
| Json (data : Payload).

Inductive Error : Type :=
| FetchRejected
| ApiError
| JsonRejected
| TypeError.

(** ** The registry: a [Map] from node type to node info

    A JavaScript [Map] iterates in insertion order, and [set] on a key
    that is present replaces its value where it stands. *)
Record NodeInfo : Type := {
  name : string;
  display_name : string;
  description : value;
  type : option string;
  version : value
}.

Definition Map := list (string * NodeInfo).

Fixpoint map_set (m : Map) (k : string) (v : NodeInfo) : Map :=
  match m with
  | [] => [(k, v)]
  | (k', v') :: r =>
      if String.eqb k' k then (k, v) :: r else (k', v') :: map_set r k v
  end.

Fixpoint map_get (m : Map) (k : string) : option NodeInfo :=
  match m with
  | [] => None
  | (k', v') :: r => if String.eqb k' k then Some v' else map_get r k
  end.

Definition map_has (m : Map) (k : string) : bool :=
  match map_get m k with
  | Some _ => true
  | None => false
  end.

Definition map_keys (m : Map) : list string := map fst m.

Definition map_values (m : Map) : list NodeInfo := map snd m.

Definition map_size (m : Map) : nat := List.length m.

(** ** [NodeValidator] *)

(** Cache duration in milliseconds: one hour. *)
Definition CACHE_DURATION : Z := 60 * 60 * 1000.

(** The fields of the class.  [fetch_promise] names the promise by the
    number of the remote fetch it belongs to; [None] is [null]. *)
Record NodeValidator : Type := {
  node_registry : Map;
  last_fetch_time : Z;
  is_fetching : bool;
  fetch_promise : option nat
}.

(** The validator a constructor call returns. *)
Definition new_validator : NodeValidator :=
  {| node_registry := []; last_fetch_time := 0;
     is_fetching := false; fetch_promise := None |}.

Definition set_registry (v : NodeValidator) (m : Map) : NodeValidator :=
  {| node_registry := m; last_fetch_time := last_fetch_time v;
     is_fetching := is_fetching v; fetch_promise := fetch_promise v |}.

Definition set_last_fetch_time (v : NodeValidator) (t : Z) : NodeValidator :=
  {| node_registry := node_registry v; last_fetch_time := t;
     is_fetching := is_fetching v; fetch_promise := fetch_promise v |}.

Definition set_fetching (v : NodeValidator) (b : bool) (p : option nat)
  : NodeValidator :=
  {| node_registry := node_registry v; last_fetch_time := last_fetch_time v;
     is_fetching := b; fetch_promise := p |}.

(** *** [add_fallback_nodes] *)

Definition fallback_nodes : list (string * string) :=
  [ ("n8n-nodes-base.start", "Start");
    ("n8n-nodes-base.manualTrigger", "Manual Trigger");
    ("n8n-nodes-base.httpRequest", "HTTP Request");
    ("n8n-nodes-base.set", "Set");
    ("n8n-nodes-base.function", "Function");
    ("n8n-nodes-base.if", "IF");
    ("n8n-nodes-base.switch", "Switch");
    ("n8n-nodes-base.merge", "Merge") ].

Definition fallback_info (node : string * string) : NodeInfo :=
  {| name := fst node; display_name := snd node;
     description := JUndefined; type := None; version := JUndefined |}.

Definition add_fallback_nodes (m : Map) : Map :=
  fold_left (fun reg node => map_set reg (fst node) (fallback_info node))
    fallback_nodes m.

(** *** [fetch_node_registry] *)

(** A string is truthy when it is not empty; an absent property is
    [undefined], which is falsy. *)
Definition truthy (s : option string) : bool :=
  match s with
  | Some EmptyString => false
  | Some _ => true
  | None => false
  end.

(** [x || y] on strings that may be absent, with [y] a string. *)
Definition or_else (x : option string) (y : string) : string :=
  match x with
  | Some s => if truthy x then s else y
  | None => y
  end.

(** [node.group?.join(', ')]: [undefined] when [group] is absent or
    [null]; the elements joined when it is an array; and a [TypeError]
    when it is anything else, which has no [join] to call. *)
Definition join_group (g : value) : Error + option string :=
  match g with
  | JUndefined | JNull => inr None
  | JArr items => inr (Some (Conversion.array_join ", " items))
  | JBool _ | JNum _ | JStr _ | JObj _ => inl TypeError
  end.

(** The object literal built for a remote node whose name is [n]; its
    evaluation throws when [join_group] does. *)
Definition node_info (n : string) (node : Remote.Node) : Error + NodeInfo :=
  match join_group (Remote.group node) with
  | inr joined =>
      inr {| name := n;
             display_name := or_else (Remote.displayName node) n;
             description := Remote.description node;
             type := joined;
             version := Remote.version node |}
  | inl e => inl e
  end.

(** The body of the [for ... in] loop.  The object literal is evaluated
    before [set] is called, so a throw leaves the registry as it is. *)
Definition process_node (reg : Map) (entry : string * Remote.Node) : Error + Map :=
  let node := snd entry in
  match Remote.name node with
  | Some n =>
      if truthy (Remote.name node)
      then match node_info n node with
           | inr info => inr (map_set reg n info)
           | inl e => inl e
           end
      else inr reg
  | None => inr reg
  end.

(** The loop, which stops at the first entry on which its body throws,
    with the registry as it is then. *)
Fixpoint process_entries (entries : list (string * Entry)) (reg : Map)
  : Map * option Error :=
  match entries with
  | [] => (reg, None)
  | (key, Described node) :: rest =>
      match process_node reg (key, node) with
      | inr reg' => process_entries rest reg'
      | inl e => (reg, Some e)
      end
  | (key, Unreadable) :: rest => (reg, Some TypeError)
  end.

Definition process_payload (data : Payload) (reg : Map) : Map * option Error :=
  match data with
  | Object entries => process_entries entries reg
  | NotAnObject => (reg, None)
  end.

(** The three awaits that open the [try] block: what they deliver, or the
    error thrown, before the registry is touched. *)
Definition remote_data (o : FetchOutcome) : Error + Payload :=
  match o with
  | NetworkError => inl FetchRejected
  | HttpError => inl ApiError
  | InvalidJson => inl JsonRejected
  | Json data => inr data
  end.

(** The [try] block, from the arrival of the answer on: the error it
    throws, if any, and the validator as it stands then. *)
Definition fetch_node_registry_try (o : FetchOutcome) (now : Z) (v : NodeValidator)
  : option Error * NodeValidator :=
  match remote_data o with
  | inl e => (Some e, v)
  | inr data =>
      let cleared := set_registry v [] in
      match process_payload data (node_registry cleared) with
      | (reg, None) => (None, set_last_fetch_time (set_registry cleared reg) now)
      | (reg, Some e) => (Some e, set_registry cleared reg)
      end
  end.

(** The [catch] block. *)
Definition fetch_node_registry_catch (now : Z) (v : NodeValidator) : NodeValidator :=
  if map_size (node_registry v) =? 0
  then set_last_fetch_time (set_registry v (add_fallback_nodes (node_registry v))) now
  else v.

(** How a promise settles. *)
Inductive Settled : Type :=
| Fulfilled
| Rejected (e : Error).

(** [fetch_node_registry], from the arrival of the remote answer [o] at
    time [now] on: how its promise settles, and the validator it leaves. *)
Definition fetch_node_registry (o : FetchOutcome) (now : Z) (v : NodeValidator)
  : Settled * NodeValidator :=
  match fetch_node_registry_try o now v with
  | (None, v') => (Fulfilled, v')
  | (Some _, v') => (Fulfilled, fetch_node_registry_catch now v')
  end.

(** The remote fetch fails: the [try] block throws before it reaches the
    registry. *)
Definition failed (o : FetchOutcome) : bool :=
  match remote_data o with
  | inl _ => true
  | inr _ => false
  end.

(** The loop body throws on [entry]: it is [null], or it is a named
    object whose [group] cannot be joined. *)
Definition throws (entry : Entry) : bool :=
  match entry with
  | Unreadable => true
  | Described node =>
      truthy (Remote.name node) &&
      match join_group (Remote.group node) with
      | inl _ => true
      | inr _ => false
      end
  end.


(** The payload is read to its end, and none of its objects is stored. *)
Definition stores_nothing (data : Payload) : Prop :=
  match data with
  | NotAnObject => True
  | Object entries =>
      forall key entry, In (key, entry) entries ->
        exists node, entry = Described node /\ truthy (Remote.name node) = false
  end.

(** The object stored for a remote node named [k]: [type] is the [group]
    joined when that is an array, and [undefined] otherwise. *)
Definition stored_info (k : string) (node : Remote.Node) : NodeInfo :=
  {| name := k;
     display_name :=
       match Remote.displayName node with
       | Some d => if String.eqb d "" then k else d
       | None => k
       end;
     description := Remote.description node;
     type :=
       match Remote.group node with
       | JArr items => Some (Conversion.array_join ", " items)
       | _ => None
       end;
     version := Remote.version node |}.


(** *** [ensure_node_registry_is_loaded] *)

(** What a call of [ensure_node_registry_is_loaded] does before it first
    suspends. *)
Inductive Entered : Type :=
| Joins (p : nat)      (* returns the promise of the fetch under way *)
| CacheValid           (* returns at once *)
| Starts (p : nat).    (* issues remote fetch number [p] and awaits it *)

Definition cache_valid (now : Z) (v : NodeValidator) : bool :=
  (0 <? map_size (node_registry v)) && (now - last_fetch_time v <? CACHE_DURATION)%Z.

(** The synchronous start of the method; [next] numbers the fetch it may
    issue. *)
Definition enter (now : Z) (next : nat) (v : NodeValidator)
  : NodeValidator * Entered :=
  match is_fetching v, fetch_promise v with
  | true, Some p => (v, Joins p)
  | _, _ =>
      if cache_valid now v then (v, CacheValid)
      else (set_fetching v true (Some next), Starts next)
  end.

(** The [finally] block. *)
Definition leave (v : NodeValidator) : NodeValidator :=
  set_fetching v false None.

(** [find_similar_node_type] *)
Definition find_similar_node_type (v : NodeValidator) (node_type : string)
  : option string :=
  Similarity.find_similar node_type (map_keys (node_registry v)).

End Registry.

(** ** Callers that interleave

    The program is single-threaded: a piece of code runs from one [await]
    to the next without interruption.  The pieces are the start of
    [ensure_node_registry_is_loaded] up to its first suspension ([Call]),
    the rest of [fetch_node_registry] once the remote end has answered
    ([Answer]; the method suspends on [fetch] and again on
    [response.json()], and touches no field of the validator in between),
    and the [finally] block of the caller that started the fetch, which
    runs after the promise it awaits has settled ([Resume]).  Any number
    of callers may arrive between them. *)
Module Interleaving.
Import Registry.

Inductive Phase : Type :=
| InFlight
| Done (r : Settled).

(** [activations] lists the calls of [fetch_node_registry] whose starter
    has not yet run its [finally] block; [issued] counts the remote
    fetches issued so far. *)
Record World : Type := {
  validator : NodeValidator;
  activations : list (nat * Phase);
  issued : nat
}.

Definition boot : World :=
  {| validator := new_validator; activations := []; issued := 0 |}.

Inductive Event : Type :=
| Call (now : Z)
| Answer (p : nat) (o : FetchOutcome) (now : Z)
| Resume (p : nat).

Fixpoint phase_of (acts : list (nat * Phase)) (p : nat) : option Phase :=
  match acts with
  | [] => None
  | (q, ph) :: r => if q =? p then Some ph else phase_of r p
  end.

Fixpoint set_phase (acts : list (nat * Phase)) (p : nat) (ph : Phase)
  : list (nat * Phase) :=
  match acts with
  | [] => []
  | (q, ph') :: r =>
      if q =? p then (q, ph) :: r else (q, ph') :: set_phase r p ph
  end.

Fixpoint drop (acts : list (nat * Phase)) (p : nat) : list (nat * Phase) :=
  match acts with
  | [] => []
  | (q, ph) :: r => if q =? p then r else (q, ph) :: drop r p
  end.

Definition on_call (now : Z) (w : World) : World * Entered :=
  let (v, r) := enter now (issued w) (validator w) in
  match r with
  | Starts p =>
      ({| validator := v;
          activations := activations w ++ [(p, InFlight)];
          issued := S (issued w) |}, r)
  | _ =>
      ({| validator := v; activations := activations w; issued := issued w |}, r)
  end.

Definition on_answer (p : nat) (o : FetchOutcome) (now : Z) (w : World)
  : option World :=
  match phase_of (activations w) p with
  | Some InFlight =>
      let (r, v) := fetch_node_registry o now (validator w) in
      Some {| validator := v;
              activations := set_phase (activations w) p (Done r);
              issued := issued w |}
  | _ => None
  end.

Definition on_resume (p : nat) (w : World) : option World :=
  match phase_of (activations w) p with
  | Some (Done _) =>
      Some {| validator := leave (validator w);
              activations := drop (activations w) p;
              issued := issued w |}
  | _ => None
  end.

(** One event; [None] when the event cannot happen in [w].  The second
    component is what a call did. *)
Definition step (w : World) (ev : Event) : option (World * list Entered) :=
  match ev with
  | Call now => let (w', r) := on_call now w in Some (w', [r])
  | Answer p o now => option_map (fun w' => (w', [])) (on_answer p o now w)
  | Resume p => option_map (fun w' => (w', [])) (on_resume p w)
  end.

(** A sequence of events, with the log of what the calls in it did. *)
Fixpoint run (w : World) (evs : list Event) : option (World * list Entered) :=
  match evs with
  | [] => Some (w, [])
  | ev :: rest =>
      match step w ev with
      | Some (w', log) =>
          match run w' rest with
          | Some (w'', log') => Some (w'', log ++ log')
          | None => None
          end
      | None => None
      end
  end.

(** The refresh operations in flight. *)
Definition in_flight (w : World) : list nat :=
  map fst (filter (fun a => match snd a with InFlight => true | Done _ => false end)
             (activations w)).

Definition is_call (ev : Event) : bool :=
  match ev with Call _ => true | _ => false end.

Definition is_resume (ev : Event) : bool :=
  match ev with Resume _ => true | _ => false end.

(** The invariant of the coordination fields. *)
Definition coordinated (w : World) : Prop :=
  (activations w = [] /\
   is_fetching (validator w) = false /\ fetch_promise (validator w) = None)
  \/
  (exists p ph,
     activations w = [(p, ph)] /\ p < issued w /\
     is_fetching (validator w) = true /\ fetch_promise (validator w) = Some p).

(** A refresh is outstanding, and [p] is its promise. *)
Definition busy (w : World) (p : nat) : Prop :=
  (exists ph, activations w = [(p, ph)]) /\
  is_fetching (validator w) = true /\ fetch_promise (validator w) = Some p.

Definition count_calls (evs : list Event) : nat :=
  List.length (filter is_call evs).

(** No [finally] block runs in [evs]. *)
Definition no_resume (evs : list Event) : bool :=
  forallb (fun ev => negb (is_resume ev)) evs.

(** The world and the log a sequence of events leads to. *)
Definition world_after (w : World) (evs : list Event) : World :=
  match run w evs with
  | Some (w', _) => w'
  | None => w
  end.

Definition log_after (w : World) (evs : list Event) : list Entered :=
  match run w evs with
  | Some (_, log) => log
  | None => []
  end.

End Interleaving.

(** ** The methods, one caller at a time

    [env k] says what the clock reads when [ensure_node_registry_is_loaded]
    is entered for the [k]-th time, how the remote end answers the fetch
    that this call issues, or finds under way and waits for, and what the
    clock reads when the answer is processed.  A run counts the calls of
    [ensure_node_registry_is_loaded] and the remote fetches they issue. *)
Module Api.
Import Registry.

Record Env : Type := {
  now : Z;
  answer : FetchOutcome;
  answered_at : Z
}.

Record Run : Type := {
  this : NodeValidator;
  calls : nat;
  fetches : nat
}.

Definition start (v : NodeValidator) : Run :=
  {| this := v; calls := 0; fetches := 0 |}.

(** A method: it runs on the validator and either returns or throws. *)
Definition M (A : Type) : Type := Run -> (Error + A) * Run.

Definition ret {A : Type} (a : A) : M A := fun r => (inr a, r).

Definition then_ {A B : Type} (m : M A) (f : A -> M B) : M B :=
  fun r =>
    match m r with
    | (inr a, r') => f a r'
    | (inl e, r') => (inl e, r')
    end.

Notation "'await' x <- m ; k" := (then_ m (fun x => k))
  (at level 61, x name, m at next level, right associativity).

Module Validation.
Record t : Type := { valid : bool; suggestion : option string }.
End Validation.

Module Invalid.
Record t : Type := { node_type : string; suggestion : option string }.
End Invalid.

Module Workflow.
(** A workflow node; only its [type] is read. *)
Record Node : Type := { type : string }.
End Workflow.

Section Methods.

Variable env : nat -> Env.

(** A caller that starts a fetch awaits it and runs the [finally] block.
    A caller that finds a fetch under way returns the promise of that
    fetch, so it goes on only when the fetch has been answered and the
    caller that started it, whose [await] was registered first, has run
    its [finally] block; it issues no fetch of its own.  In either case
    [env] says how the remote end answers. *)
Definition ensure_node_registry_is_loaded : M unit :=
  fun r =>
    let e := env (calls r) in
    match enter (now e) (fetches r) (this r) with
    | (v1, Starts _) =>
        let (settled, v2) := fetch_node_registry (answer e) (answered_at e) v1 in
        let r' := {| this := leave v2; calls := S (calls r);
                     fetches := S (fetches r) |} in
        match settled with
        | Fulfilled => (inr tt, r')
        | Rejected err => (inl err, r')
        end
    | (v1, Joins _) =>
        let (settled, v2) := fetch_node_registry (answer e) (answered_at e) v1 in
        let r' := {| this := leave v2; calls := S (calls r);
                     fetches := fetches r |} in
        match settled with
        | Fulfilled => (inr tt, r')
        | Rejected err => (inl err, r')
        end
    | (v1, CacheValid) =>
        (inr tt, {| this := v1; calls := S (calls r); fetches := fetches r |})
    end.

Definition validate_node_type (node_type : string) : M Validation.t :=
  await _ <- ensure_node_registry_is_loaded ;
  fun r =>
    if map_has (node_registry (this r)) node_type
    then (inr {| Validation.valid := true; Validation.suggestion := None |}, r)
    else (inr {| Validation.valid := false;
                 Validation.suggestion := find_similar_node_type (this r) node_type |},
          r).

(** The [for ... of] loop of [validate_workflow_nodes]. *)
Fixpoint validate_each (nodes : list Workflow.Node) (invalid_nodes : list Invalid.t)
  : M (list Invalid.t) :=
  match nodes with
  | [] => ret invalid_nodes
  | node :: rest =>
      await validation <- validate_node_type (Workflow.type node) ;
      if negb (Validation.valid validation)
      then validate_each rest
             (invalid_nodes ++
                [{| Invalid.node_type := Workflow.type node;
                    Invalid.suggestion := Validation.suggestion validation |}])
      else validate_each rest invalid_nodes
  end.

Definition validate_workflow_nodes (nodes : list Workflow.Node) : M (list Invalid.t) :=
  await _ <- ensure_node_registry_is_loaded ;
  validate_each nodes [].

Definition get_available_node_types : M (list string) :=
  await _ <- ensure_node_registry_is_loaded ;
  fun r => (inr (map_keys (node_registry (this r))), r).

Definition get_available_nodes : M (list NodeInfo) :=
  await _ <- ensure_node_registry_is_loaded ;
  fun r => (inr (map_values (node_registry (this r))), r).

End Methods.

(** *** What [validate_workflow_nodes] computes, as a function of the runs
    of [ensure_node_registry_is_loaded] *)

(** The run after [n] successive calls of [ensure_node_registry_is_loaded]. *)
Fixpoint ensured (env : nat -> Env) (n : nat) (r : Run) : Run :=
  match n with
  | O => r
  | S n' => ensured env n' (snd (ensure_node_registry_is_loaded env r))
  end.

(** The entry a node contributes when it is judged against [v]: none when
    its type is a key of the registry. *)
Definition verdict (v : NodeValidator) (node : Workflow.Node) : list Invalid.t :=
  if map_has (node_registry v) (Workflow.type node) then []
  else [{| Invalid.node_type := Workflow.type node;
           Invalid.suggestion := find_similar_node_type v (Workflow.type node) |}].

(** Each node is judged against the validator its own call of
    [ensure_node_registry_is_loaded] leaves. *)
Fixpoint verdicts (env : nat -> Env) (r : Run) (nodes : list Workflow.Node)
  : list Invalid.t :=
  match nodes with
  | [] => []
  | node :: rest =>
      let r' := snd (ensure_node_registry_is_loaded env r) in
      verdict (this r') node ++ verdicts env r' rest
  end.

End Api.

(** ** The response budgeter *)
Module Budgeter.

Definition MAX_RESPONSE_TOKENS : nat := 8 * 1000.

Definition nl : string := String "010"%char "".

Definition dquote : string := String "034"%char "".

Definition TRUNCATION_MESSAGE : string :=
  (nl ++ nl ++
   "[Response truncated due to size limits. Use more specific filtering or pagination to get complete data.]")%string.

(** [Math.ceil(text.length / 3.5)].  The divisor is a dyadic number and
    the quotient is either an integer or at least 1/7 away from one, so
    the rounded quotient has the ceiling of the exact one: the least
    integer not below [2 * length / 7]. *)
Definition estimateTokenCount (text : string) : nat :=
  (2 * String.length text + 6) / 7.

(** *** [JSON.stringify(value, null, 2)] *)

Definition hex_digit (n : nat) : ascii :=
  if n <? 10 then ascii_of_nat (48 + n) else ascii_of_nat (87 + n).

(** One code unit inside a JSON string literal. *)
Definition quote_unit (c : ascii) : string :=
  let n := nat_of_ascii c in
  if n =? 8 then "\b"
  else if n =? 9 then "\t"
  else if n =? 10 then "\n"
  else if n =? 12 then "\f"
  else if n =? 13 then "\r"
  else if n =? 34 then ("\" ++ dquote)%string
  else if n =? 92 then "\\"
  else if n <? 32 then
    ("\u00" ++ String (hex_digit (n / 16)) (String (hex_digit (n mod 16)) ""))%string
  else String c "".

Fixpoint quote_units (s : string) : string :=
  match s with
  | EmptyString => EmptyString
  | String c r => (quote_unit c ++ quote_units r)%string
  end.

(** [QuoteJSONString] *)
Definition quote (s : string) : string :=
  (dquote ++ quote_units s ++ dquote)%string.

(** The decimal form of an integer. *)
Definition number_to_string (n : Z) : string :=
  NilZero.string_of_int (Z.to_int n).

Definition join (sep : string) (parts : list string) : string :=
  String.concat sep parts.

Definition gap : string := "  ".

(** The text of [v] at indentation [indent]; [None] is [undefined], the
    result for a value that has no JSON text.  In an array such an element
    is written [null], in an object the property is left out. *)
Fixpoint stringify_in (indent : string) (v : value) {struct v} : option string :=
  match v with
  | JUndefined => None
  | JNull => Some "null"
  | JBool b => Some (if b then "true" else "false")
  | JNum n => Some (number_to_string n)
  | JStr s => Some (quote s)
  | JArr items =>
      let inner := (indent ++ gap)%string in
      let partial :=
        (fix elements (l : list value) : list string :=
           match l with
           | [] => []
           | x :: r =>
               match stringify_in inner x with
               | Some t => t
               | None => "null"
               end :: elements r
           end) items in
      Some (match partial with
            | [] => "[]"
            | _ => ("[" ++ nl ++ inner ++ join ("," ++ nl ++ inner) partial
                    ++ nl ++ indent ++ "]")%string
            end)
  | JObj props =>
      let inner := (indent ++ gap)%string in
      let partial :=
        (fix members (l : list (string * value)) : list string :=
           match l with
           | [] => []
           | (k, x) :: r =>
               match stringify_in inner x with
               | Some t => (quote k ++ ": " ++ t)%string :: members r
               | None => members r
               end
           end) props in
      Some (match partial with
            | [] => "{}"
            | _ => ("{" ++ nl ++ inner ++ join ("," ++ nl ++ inner) partial
                    ++ nl ++ indent ++ "}")%string
            end)
  end.

Definition stringify (v : value) : option string := stringify_in "" v.

(** *** Reading values *)

Definition truthy (v : value) : bool :=
  match v with
  | JUndefined | JNull => false
  | JBool b => b
  | JNum n => negb (n =? 0)%Z
  | JStr s => negb (String.eqb s "")
  | JArr _ | JObj _ => true
  end.

Fixpoint lookup (props : list (string * value)) (k : string) : value :=
  match props with
  | [] => JUndefined
  | (k', x) :: r => if String.eqb k' k then x else lookup r k
  end.

(** [v.k] for the property names the code reads ([id], [data],
    [resultData], ...): a property of an object, and [undefined] on the
    other values.  The code reads properties only of values it has found
    truthy, or behind [?.]. *)
Definition get_prop (v : value) (k : string) : value :=
  match v with
  | JObj props => lookup props k
  | _ => JUndefined
  end.

(** [typeof v === 'object'] for a truthy [v]. *)
Definition is_object (v : value) : bool :=
  match v with
  | JArr _ | JObj _ => true
  | _ => false
  end.

(** [Object.keys(v).length] for a truthy [v]. *)
Definition keys_length (v : value) : nat :=
  match v with
  | JObj props => List.length props
  | JArr items => List.length items
  | JStr s => String.length s
  | _ => 0
  end.

Fixpoint set_prop (props : list (string * value)) (k : string) (x : value)
  : list (string * value) :=
  match props with
  | [] => [(k, x)]
  | (k', x') :: r =>
      if String.eqb k' k then (k, x) :: r else (k', x') :: set_prop r k x
  end.

(** [{...obj, data: d}] *)
Definition with_data (obj d : value) : value :=
  match obj with
  | JObj props => JObj (set_prop props "data" d)
  | _ => JObj [("data", d)]
  end.

(** *** [truncateExecutionItem] *)
Definition truncateExecutionItem (execution : value) : value :=
  if negb (truthy execution) then execution
  else
    let truncated :=
      [ ("id", get_prop execution "id");
        ("mode", get_prop execution "mode");
        ("status", get_prop execution "status");
        ("startedAt", get_prop execution "startedAt");
        ("stoppedAt", get_prop execution "stoppedAt");
        ("workflowId", get_prop execution "workflowId");
        ("waitTill", get_prop execution "waitTill") ] in
    let data := get_prop execution "data" in
    if truthy data && is_object data then
      let resultData := get_prop data "resultData" in
      let runData :=
        match resultData with
        | JUndefined | JNull => JUndefined
        | _ => get_prop resultData "runData"
        end in
      let hasResults := if truthy runData then keys_length runData else 0 in
      JObj (truncated ++
            [("dataSummary",
              JStr (number_to_string (Z.of_nat hasResults) ++ " nodes executed")%string)])
    else JObj truncated.

(** *** [truncateResponse]

    [None]: the call throws, which it does for [undefined] only, whose
    [JSON.stringify] is not a string. *)
Definition hard_truncate (jsonString : string) : string :=
  let maxLength := MAX_RESPONSE_TOKENS * 4 in
  (substring 0 maxLength jsonString ++ TRUNCATION_MESSAGE)%string.

Definition truncateResponse (obj : value) : option string :=
  match stringify obj with
  | None => None
  | Some jsonString =>
      let tokenCount := estimateTokenCount jsonString in
      if tokenCount <=? MAX_RESPONSE_TOKENS then Some jsonString
      else
        let data := get_prop obj "data" in
        match (if truthy data then data else JUndefined) with
        | JArr items =>
            let truncatedObj := with_data obj (JArr (map truncateExecutionItem items)) in
            match stringify truncatedObj with
            | Some truncatedString =>
                if estimateTokenCount truncatedString <=? MAX_RESPONSE_TOKENS
                then Some (truncatedString ++ TRUNCATION_MESSAGE)%string
                else Some (hard_truncate jsonString)
            | None => Some (hard_truncate jsonString)
            end
        | _ => Some (hard_truncate jsonString)
        end
  end.

(** [s.endsWith(m)] *)
Fixpoint starts_with (p l : list ascii) : bool :=
  match p, l with
  | [], _ => true
  | a :: p', b :: l' => Ascii.eqb a b && starts_with p' l'
  | _ :: _, [] => false
  end.

Definition endsWith (s m : string) : bool :=
  starts_with (rev (list_ascii_of_string m)) (rev (list_ascii_of_string s)).

(** [s] ends in [t]. *)
Definition ends_in (s t : string) : Prop :=
  exists pre, s = (pre ++ t)%string.

End Budgeter.

(** ** The shape of the registry *)
Module Shape.
Import Registry.

(** The list is a map: no key occurs twice.  Every entry sits under its
    [name], which is not empty, and has a [display_name]. *)
Definition well_keyed (m : Map) : Prop :=
  NoDup (map_keys m) /\
  forall k info, In (k, info) m ->
    k <> "" /\ name info = k /\ display_name info <> "".

Definition is_answer (ev : Interleaving.Event) : bool :=
  match ev with Interleaving.Answer _ _ _ => true | _ => false end.

(** No remote answer is processed in [evs]. *)
Definition no_answer (evs : list Interleaving.Event) : bool :=
  forallb (fun ev => negb (is_answer ev)) evs.

End Shape.

(** ** The summary of a list of executions *)
Module Summary.
Import Budgeter.

(** How a call ends: it returns a string or [undefined] ([None]), or it
    throws a [TypeError]. *)
Inductive Completion : Type :=
| Returns (text : option string)
| Throws.

(** The callback of [executions.data.map]; reading [exec.id] throws when
    [exec] is [null] or [undefined] ([None]). *)
Definition summary_record (exec : value) : option value :=
  match exec with
  | JNull | JUndefined => None
  | _ =>
      Some (JObj [ ("id", get_prop exec "id");
                   ("status", get_prop exec "status");
                   ("startedAt", get_prop exec "startedAt");
                   ("stoppedAt", get_prop exec "stoppedAt");
                   ("workflowId", get_prop exec "workflowId");
                   ("mode", get_prop exec "mode");
                   ("dataSize",
                    JStr (if truthy (get_prop exec "data") then "present" else "none")) ])
  end.

(** [items.map(callback)], which stops at the first element on which the
    callback throws. *)
Fixpoint summary_records (items : list value) : option (list value) :=
  match items with
  | [] => Some []
  | exec :: rest =>
      match summary_record exec with
      | Some record =>
          match summary_records rest with
          | Some records => Some (record :: records)
          | None => None
          end
      | None => None
      end
  end.

(** [createSummaryResponse].  A truthy [executions.data] that is not an
    array has no method [map], and calling it throws. *)
Definition createSummaryResponse (executions : value) : Completion :=
  if negb (truthy executions) || negb (truthy (get_prop executions "data"))
  then Returns (stringify executions)
  else
    match get_prop executions "data" with
    | JArr items =>
        match summary_records items with
        | Some records =>
            Returns (stringify
                       (JObj [ ("totalExecutions", JNum (Z.of_nat (List.length items)));
                               ("summary", JArr records);
                               ("nextCursor", get_prop executions "nextCursor") ]))
        | None => Throws
        end
    | _ => Throws
    end.

(** The seven fields [truncateExecutionItem] copies. *)
Definition kept_fields : list string :=
  ["id"; "mode"; "status"; "startedAt"; "stoppedAt"; "workflowId"; "waitTill"].

End Summary.

(** ** The excerpt of a document *)
Module Docs.

(** White space, as [\s] and [trim] see it among the code units below
    256: tab, line feed, vertical tab, form feed, carriage return, space
    and no-break space. *)
Definition is_space (c : ascii) : bool :=
  let n := nat_of_ascii c in
  ((9 <=? n) && (n <=? 13)) || (n =? 32) || (n =? 160).

(** [s.split(/\s+/)]: the pieces between the maximal runs of white space.
    A string that starts or ends with white space has an empty first or
    last piece, and the empty string has the one piece [""].  [current]
    is the piece under way, [in_run] says that the last character was
    white space. *)
Fixpoint split_spaces (in_run : bool) (current : string) (s : string) : list string :=
  match s with
  | EmptyString => [current]
  | String c r =>
      if is_space c then
        if in_run then split_spaces true current r
        else current :: split_spaces true EmptyString r
      else split_spaces false (current ++ String c EmptyString)%string r
  end.

Definition split_whitespace (s : string) : list string :=
  split_spaces false EmptyString s.

(** [s.split('\n')] *)
Fixpoint split_line_feeds (current : string) (s : string) : list string :=
  match s with
  | EmptyString => [current]
  | String c r =>
      if Ascii.eqb c "010"%char then current :: split_line_feeds EmptyString r
      else split_line_feeds (current ++ String c EmptyString)%string r
  end.

Definition split_lines (s : string) : list string :=
  split_line_feeds EmptyString s.

(** [s.includes(w)] *)
Fixpoint includes (s w : string) : bool :=
  String.prefix w s
  || match s with
     | EmptyString => false
     | String _ r => includes r w
     end.

Fixpoint trim_start (s : string) : string :=
  match s with
  | EmptyString => EmptyString
  | String c r => if is_space c then trim_start r else s
  end.

Fixpoint trim_end (s : string) : string :=
  match s with
  | EmptyString => EmptyString
  | String c r =>
      match trim_end r with
      | EmptyString => if is_space c then EmptyString else String c EmptyString
      | r' => String c r'
      end
  end.

(** [s.trim()] *)
Definition trim (s : string) : string := trim_end (trim_start s).

(** [text.substring(0, 200) + (whole.length > 200 ? '...' : '')] *)
Definition clip (text whole : string) : string :=
  let ellipsis := if 200 <? String.length whole then "..." else "" in
  (substring 0 200 text ++ ellipsis)%string.

(** [words.some(word => lineLower.includes(word))] *)
Definition mentions (words : list string) (line : string) : bool :=
  existsb (fun word => includes (toLowerCase line) word) words.

(** [extractExcerpt] *)
Definition extractExcerpt (content query : string) : string :=
  let words := split_whitespace query in
  let lines := split_lines content in
  match find (mentions words) lines with
  | Some line => clip (trim line) line
  | None => clip content content
  end.

End Docs.

(** ** The client that owns the validator *)
Module Client.
Import Registry Api.

(** [url.replace(/\/$/, '')]: the pattern matches a slash at the very end
    of the string only. *)
Fixpoint strip_trailing_slash (s : string) : string :=
  match s with
  | EmptyString => EmptyString
  | String c r =>
      match r with
      | EmptyString => if Ascii.eqb c "/"%char then EmptyString else s
      | _ => String c (strip_trailing_slash r)
      end
  end.

(** The address [fetch_node_registry] asks, for a validator constructed
    with [baseUrl]. *)
Definition registry_url (baseUrl : string) : string :=
  (strip_trailing_slash baseUrl ++ "/types/nodes.json")%string.

(** The same for the validator that the constructor of [N8nClient] makes:
    the client strips its [baseUrl] and hands the result on. *)
Definition client_registry_url (baseUrl : string) : string :=
  registry_url (strip_trailing_slash baseUrl).

(** How the validation of the nodes in [createValidatedWorkflow] fails: an
    error of the validator, or the error the method throws itself. *)
Inductive Failure : Type :=
| Propagated (e : Error)
| NodeValidationFailed (message : string).

(** The text for one invalid node. *)
Definition error_message (error : Invalid.t) : string :=
  let plain :=
    ("Invalid node type " ++ Budgeter.dquote ++ Invalid.node_type error
     ++ Budgeter.dquote)%string in
  match Invalid.suggestion error with
  | Some suggestion =>
      if String.eqb suggestion "" then plain
      else (plain ++ ". Did you mean " ++ Budgeter.dquote ++ suggestion
            ++ Budgeter.dquote ++ "?")%string
  | None => plain
  end.

(** The step of [createValidatedWorkflow] that validates the node types;
    [None] is a workflow without [nodes]. *)
Definition validate_nodes (env : nat -> Env) (nodes : option (list Workflow.Node))
  (r : Run) : (Failure + unit) * Run :=
  match nodes with
  | None | Some [] => (inr tt, r)
  | Some ns =>
      match validate_workflow_nodes env ns r with
      | (inl e, r') => (inl (Propagated e), r')
      | (inr [], r') => (inr tt, r')
      | (inr errors, r') =>
          (inl (NodeValidationFailed
                  ("Node validation failed: "
                   ++ String.concat ", " (map error_message errors))%string),
           r')
      end
  end.

End Client.

(** ** Sample data for the worked instances *)
Module Samples.
Import Registry.

Definition http_request : NodeInfo :=
  {| name := "n8n-nodes-base.httpRequest"; display_name := "HTTP Request";
     description := JStr "Makes an HTTP request"; type := Some "output";
     version := JNum 1 |}.

(** A validator whose registry was loaded at time 0. *)
Definition loaded_validator : NodeValidator :=
  {| node_registry := [("n8n-nodes-base.httpRequest", http_request)];
     last_fetch_time := 0; is_fetching := false; fetch_promise := None |}.

Definition remote_webhook : Remote.Node :=
  {| Remote.name := Some "n8n-nodes-base.webhook";
     Remote.displayName := Some "Webhook";
     Remote.description := JStr "Starts the workflow when a webhook is called";
     Remote.group := JArr [JStr "trigger"];
     Remote.version := JNum 1 |}.

(** An object without [name]. *)
Definition remote_nameless : Remote.Node :=
  {| Remote.name := None; Remote.displayName := Some "Nameless";
     Remote.description := JUndefined; Remote.group := JUndefined;
     Remote.version := JUndefined |}.

(** An object whose [displayName] is the empty string. *)
Definition remote_blank_title : Remote.Node :=
  {| Remote.name := Some "n8n-nodes-base.code"; Remote.displayName := Some "";
     Remote.description := JUndefined; Remote.group := JArr [JStr "transform"; JStr "dev"];
     Remote.version := JNum 2 |}.



Definition sample_entries : list (string * Remote.Node) :=
  [("0", remote_webhook); ("1", remote_nameless); ("2", remote_blank_title)].

(** A registry with two keys at the same distance from ["abcd"]. *)
Definition tied_validator : NodeValidator :=
  {| node_registry :=
       [("abce", fallback_info ("abce", "E")); ("abcf", fallback_info ("abcf", "F"))];
     last_fetch_time := 0; is_fetching := false; fetch_promise := None |}.

(** A refresh that ran to its end before the callers of interest arrive:
    the fetch failed and the fallback nodes were installed at time 40. *)
Definition earlier_refresh : list Interleaving.Event :=
  [Interleaving.Call 10; Interleaving.Answer 0 NetworkError 40;
   Interleaving.Resume 0].

(** Callers that arrive, more than an hour later, before and after the
    remote end answers. *)
Definition late_callers : list Interleaving.Event :=
  [Interleaving.Call 4000001; Interleaving.Call 4000002;
   Interleaving.Answer 1 (Json (catalog sample_entries)) 4000500;
   Interleaving.Call 4000501].

(** The remote end is down, and the clock reads two hours. *)
Definition remote_down : nat -> Api.Env :=
  fun _ => {| Api.now := 7200000; Api.answer := NetworkError;
              Api.answered_at := 7200050 |}.

Definition named (n : string) : Remote.Node :=
  {| Remote.name := Some n; Remote.displayName := None;
     Remote.description := JUndefined; Remote.group := JUndefined;
     Remote.version := JUndefined |}.

(** The remote end knows [a.valid] and [a.valid2]; the clock advances by
    one millisecond per call. *)
Definition remote_up : nat -> Api.Env :=
  fun k => {| Api.now := 100 + Z.of_nat k;
              Api.answer := Json (catalog [("0", named "a.valid"); ("1", named "a.valid2")]);
              Api.answered_at := 100 + Z.of_nat k |}.

(** The remote end is down when the first call arrives and up again for
    the calls that follow; the clock reads two hours and advances by one
    millisecond per call. *)
Definition remote_recovers : nat -> Api.Env :=
  fun k => {| Api.now := 7200000 + Z.of_nat k;
              Api.answer :=
                match k with
                | O => NetworkError
                | S _ => Json (catalog [("0", named "a.valid"); ("1", named "a.valid2")])
                end;
              Api.answered_at := 7200000 + Z.of_nat k |}.

(** The remote end answers with an empty object. *)
Definition remote_empty : nat -> Api.Env :=
  fun k => {| Api.now := 100 + Z.of_nat k;
              Api.answer := Json (Object []);
              Api.answered_at := 100 + Z.of_nat k |}.

(** A validator whose first fetch is under way. *)
Definition busy_validator : NodeValidator :=
  {| node_registry := []; last_fetch_time := 0;
     is_fetching := true; fetch_promise := Some 0 |}.

Definition batch : list Api.Workflow.Node :=
  [ {| Api.Workflow.type := "a.valid" |};
    {| Api.Workflow.type := "a.invalid" |};
    {| Api.Workflow.type := "a.valid2" |} ].

(** A string of [n] letters. *)
Fixpoint letters (n : nat) : string :=
  match n with
  | O => EmptyString
  | S n' => String "x"%char (letters n')
  end.

(** A list of executions with one record that carries 30000 characters of
    run data. *)
Definition bulky_executions : value :=
  JObj [("data",
         JArr [JObj [("id", JNum 1); ("status", JStr "success");
                     ("data", JObj [("resultData",
                                     JObj [("runData",
                                            JObj [("Start", JStr (letters (30 * 1000)))])])])]]);
        ("nextCursor", JNull)].

(** A list of executions with a [null] among them. *)
Definition executions_with_null : value :=
  JObj [("data", JArr [JObj [("id", JNum 1); ("status", JStr "success")]; JNull])].

End Samples.

(* ================================================================== *)
(** * Part II: lemmas and theorems                                     *)
(* ================================================================== *)

Module SimilarityFacts.
Import Similarity.

Example lev_kitten :
  levenshtein_distance "kitten" "sitting" = Some 3.
Proof. reflexivity. Qed.

Example lower_case : toLowerCase "N8N-Nodes-Base.HTTPRequest" = "n8n-nodes-base.httprequest".
Proof. reflexivity. Qed.

Example similarity_of_one_edit_in_four :
  match calculate_similarity "ABCD" "abce" with
  | Some s => Qeq_bool s (3 # 4)
  | None => false
  end = true.
Proof. reflexivity. Qed.

Example similarity_of_empty_strings : calculate_similarity "" "" = None.
Proof. reflexivity. Qed.

Example no_suggestion_at_threshold :
  find_similar "abcde" ["abcxy"] = None.
Proof. reflexivity. Qed.

Example similarity_transposed :
  find_similar "n8n-nodes-base.httpReqeust"
    ["n8n-nodes-base.start"; "n8n-nodes-base.httpRequest"; "n8n-nodes-base.set"]
  = Some "n8n-nodes-base.httpRequest".
Proof. vm_compute. reflexivity. Qed.


(** *** The recurrence [lev] *)

Lemma lev_nil_r s : lev s [] = List.length s.
Proof. destruct s; reflexivity. Qed.

Lemma lev_cons_cons a b s t :
  lev (a :: s) (b :: t) =
  Nat.min (lev s (b :: t) + 1)
    (Nat.min (lev (a :: s) t + 1) (lev s t + (if Ascii.eqb a b then 0 else 1))).
Proof. reflexivity. Qed.

Lemma lev_sym s : forall t, lev s t = lev t s.
Proof.
  induction s as [|a s IHs]; intros t.
  - now rewrite lev_nil_r.
  - induction t as [|b t IHt].
    + reflexivity.
    + rewrite !lev_cons_cons, IHt, (IHs (b :: t)), (IHs t), (Ascii.eqb_sym a b).
      lia.
Qed.

Lemma lev_cons_r_le c s t : lev s (c :: t) <= lev s t + 1.
Proof.
  destruct s as [|a s].
  - simpl. lia.
  - rewrite lev_cons_cons. lia.
Qed.

Lemma lev_cons_l_le c s t : lev (c :: s) t <= lev s t + 1.
Proof. rewrite (lev_sym (c :: s)), (lev_sym s). apply lev_cons_r_le. Qed.

Lemma lev_refl s : lev s s = 0.
Proof.
  induction s as [|a s IH]; [reflexivity|].
  rewrite lev_cons_cons, IH, Ascii.eqb_refl. lia.
Qed.

Lemma lev_drop_r c t : forall s, lev s t <= lev s (c :: t) + 1.
Proof.
  induction s as [|a s IH].
  - simpl. lia.
  - rewrite lev_cons_cons.
    pose proof (lev_cons_l_le a s t).
    destruct (Ascii.eqb a c); lia.
Qed.

Lemma lev_subst_r c c' t : forall s, lev s (c' :: t) <= lev s (c :: t) + 1.
Proof.
  induction s as [|a s IH].
  - simpl. lia.
  - rewrite !lev_cons_cons.
    destruct (Ascii.eqb a c), (Ascii.eqb a c'); lia.
Qed.

(** One more edit on the target costs at most one. *)
Lemma lev_one_edit t u :
  one_edit t u -> forall s, lev s u <= lev s t + 1.
Proof.
  induction 1 as [c t|c t|c c' t|c t u Htu IH]; intros s.
  - apply lev_cons_r_le.
  - apply lev_drop_r.
  - apply lev_subst_r.
  - induction s as [|a s IHs].
    + specialize (IH []). simpl in *. lia.
    + rewrite !lev_cons_cons.
      specialize (IH (a :: s)) as IH1. specialize (IH s) as IH2.
      lia.
Qed.

Lemma one_edit_sym s t : one_edit s t -> one_edit t s.
Proof. induction 1; constructor; assumption. Qed.

(** No sequence of edits is shorter than [lev]. *)
Lemma lev_le_edits s t n : edits s t n -> lev s t <= n.
Proof.
  induction 1 as [s|s t u n Hst _ IH].
  - rewrite lev_refl. lia.
  - apply one_edit_sym in Hst.
    pose proof (lev_one_edit _ _ Hst u) as H.
    rewrite (lev_sym u s), (lev_sym u t) in H. lia.
Qed.

Lemma edits_snoc s t u n : edits s t n -> one_edit t u -> edits s u (S n).
Proof.
  induction 1 as [s|s t' t n Hst _ IH]; intros Hu.
  - eapply edits_step; [eassumption | constructor].
  - eapply edits_step; [eassumption | auto].
Qed.

Lemma edits_cons c s t n : edits s t n -> edits (c :: s) (c :: t) n.
Proof.
  induction 1 as [s|s t u n Hst _ IH].
  - constructor.
  - eapply edits_step; [apply edit_later; eassumption | assumption].
Qed.

(** [lev] is reached by a sequence of edits. *)
Lemma edits_lev s : forall t, edits s t (lev s t).
Proof.
  induction s as [|a s IHs]; intros t.
  - induction t as [|b t IHt]; simpl.
    + constructor.
    + eapply edits_snoc; [exact IHt | constructor].
  - induction t as [|b t IHt].
    + rewrite lev_nil_r. simpl.
      eapply edits_step; [apply edit_delete | ].
      specialize (IHs []). now rewrite lev_nil_r in IHs.
    + rewrite lev_cons_cons.
      destruct (Nat.min_spec (lev s (b :: t) + 1)
                  (Nat.min (lev (a :: s) t + 1)
                     (lev s t + (if Ascii.eqb a b then 0 else 1))))
        as [[_ ->]|[_ ->]].
      * rewrite Nat.add_1_r.
        eapply edits_step; [apply edit_delete | apply IHs].
      * destruct (Nat.min_spec (lev (a :: s) t + 1)
                    (lev s t + (if Ascii.eqb a b then 0 else 1)))
          as [[_ ->]|[_ ->]].
        -- rewrite Nat.add_1_r.
           eapply edits_snoc; [exact IHt | constructor].
        -- destruct (Ascii.eqb_spec a b) as [->|_].
           ++ rewrite Nat.add_0_r. apply edits_cons, IHs.
           ++ rewrite Nat.add_1_r.
              eapply edits_step; [apply (edit_substitute a b) | ].
              apply edits_cons, IHs.
Qed.

(** [lev] is the edit distance. *)
Lemma lev_edit_distance s t :
  edit_distance s t (lev (list_ascii_of_string s) (list_ascii_of_string t)).
Proof. split; [apply edits_lev | intros n; apply lev_le_edits]. Qed.

(** *** Reversal, and the recurrence on the last characters *)

Lemma one_edit_app_r r s t : one_edit s t -> one_edit (s ++ r) (t ++ r).
Proof. induction 1; simpl; constructor; assumption. Qed.

Lemma one_edit_app_l l s t : one_edit s t -> one_edit (l ++ s) (l ++ t).
Proof. intros H. induction l; simpl; [|constructor]; assumption. Qed.

Lemma one_edit_rev s t : one_edit s t -> one_edit (rev s) (rev t).
Proof.
  induction 1 as [c t|c t|c c' t|c s t _ IH]; simpl.
  - rewrite <- (app_nil_r (rev t)) at 1. apply one_edit_app_l. constructor.
  - rewrite <- (app_nil_r (rev t)) at 2. apply one_edit_app_l. constructor.
  - apply one_edit_app_l. constructor.
  - apply one_edit_app_r, IH.
Qed.

Lemma edits_rev s t n : edits s t n -> edits (rev s) (rev t) n.
Proof.
  induction 1 as [s|s t u n Hst _ IH].
  - constructor.
  - eapply edits_step; [apply one_edit_rev; eassumption | assumption].
Qed.

Lemma lev_rev s t : lev (rev s) (rev t) = lev s t.
Proof.
  apply Nat.le_antisymm.
  - apply lev_le_edits, edits_rev, edits_lev.
  - rewrite <- (rev_involutive s), <- (rev_involutive t) at 1.
    apply lev_le_edits, edits_rev, edits_lev.
Qed.

Lemma lev_snoc a b s t :
  lev (s ++ [a]) (t ++ [b]) =
  Nat.min (lev s (t ++ [b]) + 1)
    (Nat.min (lev (s ++ [a]) t + 1) (lev s t + (if Ascii.eqb a b then 0 else 1))).
Proof.
  rewrite <- (lev_rev (s ++ [a]) (t ++ [b])), <- (lev_rev s (t ++ [b])),
    <- (lev_rev (s ++ [a]) t), <- (lev_rev s t).
  rewrite !rev_app_distr. reflexivity.
Qed.


(** *** The loops compute [lev] *)

Lemma for_loop_family {St : Type} (body : nat -> St -> option St) (P : nat -> St) :
  forall n i,
    (forall k, k < n -> body (i + k) (P (i + k)) = Some (P (i + k + 1))) ->
    for_loop n i body (P i) = Some (P (i + n)).
Proof.
  induction n as [|n IH]; intros i H; simpl.
  - now rewrite Nat.add_0_r.
  - specialize (H 0 ltac:(lia)) as H0. rewrite Nat.add_0_r in H0.
    rewrite H0, Nat.add_1_r, IH.
    + f_equal. f_equal. lia.
    + intros k Hk. specialize (H (S k) ltac:(lia)).
      replace (S i + k) with (i + S k) by lia. exact H.
Qed.

Lemma get_nth_error s : forall i,
  String.get i s = nth_error (list_ascii_of_string s) i.
Proof.
  induction s as [|c s IH]; intros [|i]; simpl; auto.
Qed.

Lemma length_list_ascii s :
  List.length (list_ascii_of_string s) = String.length s.
Proof. induction s; simpl; auto. Qed.

Lemma firstn_snoc {A : Type} (l : list A) : forall i x,
  nth_error l i = Some x -> firstn (S i) l = firstn i l ++ [x].
Proof.
  induction l as [|y l IH]; intros [|i] x H; simpl in *; try discriminate.
  - now inversion H.
  - f_equal. now apply IH.
Qed.

Lemma assign_append {A : Type} (l : list A) (v : A) :
  assign l (List.length l) v = Some (l ++ [v]).
Proof.
  unfold assign. rewrite Nat.ltb_irrefl, Nat.eqb_refl. reflexivity.
Qed.

Lemma splice_middle {A : Type} (pre post : list A) (x v : A) :
  firstn (List.length pre) (pre ++ x :: post)
  ++ v :: skipn (S (List.length pre)) (pre ++ x :: post)
  = pre ++ v :: post.
Proof.
  induction pre as [|y pre IH]; [reflexivity|].
  change (y :: (firstn (List.length pre) (pre ++ x :: post)
    ++ v :: skipn (S (List.length pre)) (pre ++ x :: post)) = y :: (pre ++ v :: post)).
  now rewrite IH.
Qed.

Lemma assign_replace {A : Type} (pre post : list A) (x v : A) :
  assign (pre ++ x :: post) (List.length pre) v = Some (pre ++ v :: post).
Proof.
  unfold assign.
  assert (H : (List.length pre <? List.length (pre ++ x :: post)) = true).
  { apply Nat.ltb_lt. rewrite length_app. simpl. lia. }
  rewrite H, splice_middle. reflexivity.
Qed.

Lemma read_middle (pre post : Matrix) (row : list nat) j :
  read (pre ++ row :: post) (List.length pre) j = nth_error row j.
Proof.
  unfold read. rewrite nth_error_app2, Nat.sub_diag by lia. reflexivity.
Qed.

Lemma write_next (pre post : Matrix) (row : list nat) v :
  write (pre ++ row :: post) (List.length pre) (List.length row) v
  = Some (pre ++ (row ++ [v]) :: post).
Proof.
  unfold write. rewrite nth_error_app2, Nat.sub_diag by lia. simpl.
  rewrite assign_append. simpl. apply assign_replace.
Qed.

Lemma prefix_dist_0_l la lb j :
  j <= List.length lb -> prefix_dist la lb 0 j = j.
Proof.
  intros H. unfold prefix_dist. simpl. rewrite length_firstn. lia.
Qed.

Lemma prefix_dist_0_r la lb i :
  i <= List.length la -> prefix_dist la lb i 0 = i.
Proof.
  intros H. unfold prefix_dist. simpl. rewrite lev_nil_r, length_firstn. lia.
Qed.

Lemma row_upto_S la lb i n :
  row_upto la lb i (S n) = row_upto la lb i n ++ [prefix_dist la lb i n].
Proof. unfold row_upto. rewrite seq_S, map_app. reflexivity. Qed.

Lemma length_row_upto la lb i n : List.length (row_upto la lb i n) = n.
Proof. unfold row_upto. now rewrite length_map, length_seq. Qed.

Lemma nth_row_upto la lb i n j :
  j < n -> nth_error (row_upto la lb i n) j = Some (prefix_dist la lb i j).
Proof.
  intros H. unfold row_upto.
  rewrite nth_error_map, nth_error_seq.
  apply Nat.ltb_lt in H. rewrite H. reflexivity.
Qed.

Lemma length_done_rows la lb i :
  List.length (map (fun k => row_upto la lb k (List.length lb + 1)) (seq 0 i)) = i.
Proof. now rewrite length_map, length_seq. Qed.

(** The first loop: one row [[i]] per index. *)
Lemma init_rows n :
  for_loop (n + 1) 0 (fun i m => assign m i [i]) [] = Some (stub_rows 0 (n + 1)).
Proof.
  apply (for_loop_family (fun i m => assign m i [i]) (fun i => stub_rows 0 i) (n + 1) 0).
  intros k _. simpl.
  pose proof (assign_append (stub_rows 0 k) [k]) as H.
  unfold stub_rows in H at 2. rewrite length_map, length_seq in H.
  rewrite H. unfold stub_rows.
  rewrite Nat.add_1_r, seq_S, map_app. reflexivity.
Qed.

Lemma matrix_at_0_1 la lb :
  matrix_at la lb 0 1 = stub_rows 0 (List.length la + 1).
Proof.
  unfold matrix_at, stub_rows, row_upto, prefix_dist. simpl.
  rewrite Nat.sub_0_r, Nat.add_1_r. reflexivity.
Qed.

(** The second loop fills row 0. *)
Lemma init_row0 la lb :
  for_loop (List.length lb + 1) 0 (fun j m => write m 0 j j)
    (stub_rows 0 (List.length la + 1))
  = Some (matrix_at la lb 0 (List.length lb + 1)).
Proof.
  rewrite Nat.add_1_r. simpl.
  rewrite <- matrix_at_0_1 at 1.
  assert (H0 : write (matrix_at la lb 0 1) 0 0 0 = Some (matrix_at la lb 0 1)).
  { reflexivity. }
  rewrite H0.
  replace (S (List.length lb)) with (1 + List.length lb) by lia.
  apply (for_loop_family (fun j m => write m 0 j j) (fun j => matrix_at la lb 0 j)).
  intros k Hk.
  replace (1 + k + 1) with (S (S k)) by lia. replace (1 + k) with (S k) by lia.
  unfold matrix_at. cbn [seq map app].
  pose proof (write_next [] (stub_rows (0 + 1) (List.length la - 0))
                (row_upto la lb 0 (S k)) (S k)) as W.
  rewrite length_row_upto in W. cbn [app List.length] in W. rewrite W.
  rewrite (row_upto_S la lb 0 (S k)), prefix_dist_0_l by lia.
  reflexivity.
Qed.


Lemma read_done_row la lb i j k n :
  k < i -> j <= List.length lb ->
  read (matrix_at la lb i n) k j = Some (prefix_dist la lb k j).
Proof.
  intros Hk Hj. unfold matrix_at, read.
  rewrite nth_error_app1 by (rewrite length_done_rows; lia).
  rewrite nth_error_map, nth_error_seq.
  apply Nat.ltb_lt in Hk. rewrite Hk. simpl.
  apply nth_row_upto. lia.
Qed.

Lemma read_current_row la lb i j n :
  j < n -> read (matrix_at la lb i n) i j = Some (prefix_dist la lb i j).
Proof.
  intros Hj. unfold matrix_at.
  pose proof (read_middle
    (map (fun k => row_upto la lb k (List.length lb + 1)) (seq 0 i))
    (stub_rows (i + 1) (List.length la - i)) (row_upto la lb i n) j) as R.
  rewrite length_done_rows in R. rewrite R. now apply nth_row_upto.
Qed.

Lemma write_current_row la lb i j :
  write (matrix_at la lb i j) i j (prefix_dist la lb i j)
  = Some (matrix_at la lb i (S j)).
Proof.
  unfold matrix_at.
  pose proof (write_next
    (map (fun k => row_upto la lb k (List.length lb + 1)) (seq 0 i))
    (stub_rows (i + 1) (List.length la - i)) (row_upto la lb i j)
    (prefix_dist la lb i j)) as W.
  rewrite length_done_rows, length_row_upto in W. rewrite W.
  now rewrite row_upto_S.
Qed.

(** The recurrence of the inner loop is the recurrence of [lev] on the
    last characters of the two prefixes. *)
Lemma prefix_dist_step a b i j :
  let la := list_ascii_of_string a in
  let lb := list_ascii_of_string b in
  i < List.length la -> j < List.length lb ->
  prefix_dist la lb (S i) (S j) =
  Nat.min (prefix_dist la lb i (S j) + 1)
    (Nat.min (prefix_dist la lb (S i) j + 1)
       (prefix_dist la lb i j + cost_at a b (S i) (S j))).
Proof.
  intros la lb Hi Hj.
  destruct (nth_error la i) as [x|] eqn:Ex;
    [|apply nth_error_None in Ex; lia].
  destruct (nth_error lb j) as [y|] eqn:Ey;
    [|apply nth_error_None in Ey; lia].
  unfold prefix_dist, cost_at.
  rewrite (firstn_snoc la i x Ex), (firstn_snoc lb j y Ey).
  rewrite !Nat.sub_succ, !Nat.sub_0_r, !get_nth_error.
  fold la lb. rewrite Ex, Ey.
  apply lev_snoc.
Qed.

Lemma fill_cell_step a b i j :
  let la := list_ascii_of_string a in
  let lb := list_ascii_of_string b in
  1 <= i <= List.length la -> 1 <= j <= List.length lb ->
  fill_cell a b i j (matrix_at la lb i j) = Some (matrix_at la lb i (j + 1)).
Proof.
  intros la lb Hi Hj.
  destruct i as [|i]; [lia|]. destruct j as [|j]; [lia|].
  unfold fill_cell.
  rewrite !Nat.sub_succ, !Nat.sub_0_r.
  rewrite (read_done_row la lb (S i) (S j) i (S j)) by lia.
  simpl bind.
  rewrite (read_current_row la lb (S i) j (S j)) by lia.
  simpl bind.
  rewrite (read_done_row la lb (S i) j i (S j)) by lia.
  simpl bind.
  pose proof (prefix_dist_step a b i j) as E. cbv zeta in E.
  fold la lb in E. rewrite <- E by lia.
  rewrite write_current_row, Nat.add_1_r. reflexivity.
Qed.

(** When row [i] is complete the matrix is ready for row [i + 1]. *)
Lemma matrix_at_next_row la lb i :
  i < List.length la ->
  matrix_at la lb i (List.length lb + 1) = matrix_at la lb (i + 1) 1.
Proof.
  intros Hi. unfold matrix_at.
  rewrite (Nat.add_1_r i), seq_S, map_app, <- app_assoc. simpl app.
  f_equal. f_equal.
  replace (List.length la - i) with (S (List.length la - S i)) by lia.
  unfold stub_rows. simpl seq. simpl map.
  rewrite (Nat.add_1_r i). unfold row_upto. simpl seq. simpl map.
  rewrite prefix_dist_0_r by lia. reflexivity.
Qed.

Lemma fill_row a b i :
  let la := list_ascii_of_string a in
  let lb := list_ascii_of_string b in
  1 <= i <= List.length la ->
  for_loop (List.length lb) 1 (fun j m => fill_cell a b i j m)
    (matrix_at la lb (i - 1) (List.length lb + 1))
  = Some (matrix_at la lb i (List.length lb + 1)).
Proof.
  intros la lb Hi.
  rewrite (matrix_at_next_row la lb (i - 1)) by lia.
  replace (i - 1 + 1) with i by lia.
  rewrite (Nat.add_comm (List.length lb) 1).
  apply (for_loop_family (fun j m => fill_cell a b i j m)
           (fun j => matrix_at la lb i j)).
  intros k Hk. apply fill_cell_step; fold la; fold lb; lia.
Qed.

(** The loops of [levenshtein_distance] never read a missing cell, and
    return [lev]. *)
Lemma levenshtein_distance_lev a b :
  levenshtein_distance a b
  = Some (lev (list_ascii_of_string a) (list_ascii_of_string b)).
Proof.
  set (la := list_ascii_of_string a). set (lb := list_ascii_of_string b).
  unfold levenshtein_distance.
  rewrite <- !length_list_ascii. fold la lb.
  rewrite init_rows. simpl bind.
  rewrite (init_row0 la lb). simpl bind.
  assert (F : for_loop (List.length la) 1
            (fun i m => for_loop (List.length lb) 1
                          (fun j m' => fill_cell a b i j m') m)
            (matrix_at la lb (1 - 1) (List.length lb + 1))
          = Some (matrix_at la lb (1 + List.length la - 1) (List.length lb + 1))).
  { apply (for_loop_family
             (fun i m => for_loop (List.length lb) 1
                           (fun j m' => fill_cell a b i j m') m)
             (fun i => matrix_at la lb (i - 1) (List.length lb + 1))).
    intros k Hk.
    replace (1 + k + 1 - 1) with (1 + k) by lia.
    apply (fill_row a b (1 + k)). fold la. lia. }
  simpl Nat.sub in F at 1. rewrite F. simpl bind.
  rewrite Nat.sub_0_r, read_current_row by lia.
  unfold prefix_dist. now rewrite !firstn_all.
Qed.


(** *** [calculate_similarity] *)

Lemma length_toLowerCase s : String.length (toLowerCase s) = String.length s.
Proof. induction s as [|c s IH]; simpl; [|rewrite IH]; reflexivity. Qed.

Lemma calculate_similarity_lev a b :
  calculate_similarity a b =
  if Nat.max (String.length a) (String.length b) =? 0 then None
  else Some (1 - inject_Z (Z.of_nat
                 (lev (list_ascii_of_string (toLowerCase a))
                      (list_ascii_of_string (toLowerCase b))))
               / inject_Z (Z.of_nat (Nat.max (String.length a) (String.length b))))%Q.
Proof.
  unfold calculate_similarity.
  rewrite levenshtein_distance_lev, !length_toLowerCase. reflexivity.
Qed.

(** *** The loop of [find_similar_node_type] *)

Lemma score_gt_true s x : score_gt s x = true <-> exists v, s = Some v /\ (x < v)%Q.
Proof.
  destruct s as [v|]; simpl.
  - rewrite negb_true_iff. split.
    + intros H. exists v. split; [reflexivity|].
      apply Qnot_le_lt. intros L. apply Qle_bool_iff in L. congruence.
    + intros (v' & E & L). inversion E; subst v'.
      destruct (Qle_bool v x) eqn:B; [|reflexivity].
      apply Qle_bool_iff in B. lra.
  - split; [discriminate|]. intros (v & E & _). discriminate.
Qed.

Lemma score_gt_false s x v : score_gt s x = false -> s = Some v -> (v <= x)%Q.
Proof.
  intros H ->. simpl in H. apply negb_false_iff in H.
  now apply Qle_bool_iff.
Qed.

Lemma threshold_pos : (0 < threshold)%Q.
Proof. reflexivity. Qed.

Lemma best_so_far_step q seen st x :
  best_so_far q seen st -> best_so_far q (seen ++ [x]) (consider q st x).
Proof.
  destruct st as [[c|] bs]; unfold best_so_far, consider; simpl fst; simpl snd.
  - intros (before & after & Hs & Hc & Ht & Hb & Ha).
    destruct (score_gt (calculate_similarity q x) bs) eqn:G1; simpl andb.
    + apply score_gt_true in G1 as (v & Ev & Lv).
      assert (G2 : score_gt (calculate_similarity q x) threshold = true).
      { apply score_gt_true. exists v. split; [assumption | lra]. }
      rewrite G2, Ev. simpl fst; simpl snd.
      exists seen, []. repeat split; auto; try lra.
      * intros c' s' Hin Hs'. subst seen.
        apply in_app_or in Hin as [Hin|[<-|Hin]].
        -- specialize (Hb _ _ Hin Hs'). lra.
        -- assert (s' = bs) by congruence. subst s'. lra.
        -- specialize (Ha _ _ Hin Hs'). lra.
      * intros c' s' [].
    + simpl fst; simpl snd.
      exists before, (after ++ [x]). repeat split; auto.
      * subst seen. now rewrite <- app_assoc.
      * intros c' s' Hin Hs'.
        apply in_app_or in Hin as [Hin|[<-|[]]]; [eauto|].
        eapply score_gt_false; eassumption.
  - intros (Hbs & Hall). subst bs.
    destruct (score_gt (calculate_similarity q x) 0) eqn:G1, 
             (score_gt (calculate_similarity q x) threshold) eqn:G2;
      simpl andb; simpl fst; simpl snd.
    + apply score_gt_true in G2 as (v & Ev & Lv). rewrite Ev. simpl fst; simpl snd.
      exists seen, []. repeat split; auto.
      * intros c' s' Hin Hs'.
        pose proof (score_gt_false _ _ _ (Hall _ Hin) Hs'). lra.
      * intros c' s' [].
    + split; [reflexivity|]. intros c Hin.
      apply in_app_or in Hin as [Hin|[<-|[]]]; auto.
    + apply score_gt_true in G2 as (v & Ev & Lv).
      pose proof (score_gt_false _ _ _ G1 Ev). pose proof threshold_pos. lra.
    + split; [reflexivity|]. intros c Hin.
      apply in_app_or in Hin as [Hin|[<-|[]]]; auto.
Qed.

Lemma best_so_far_fold q : forall rest seen st,
  best_so_far q seen st ->
  best_so_far q (seen ++ rest) (fold_left (consider q) rest st).
Proof.
  induction rest as [|x rest IH]; intros seen st H; simpl.
  - now rewrite app_nil_r.
  - replace (seen ++ x :: rest) with ((seen ++ [x]) ++ rest)
      by now rewrite <- app_assoc.
    apply IH, best_so_far_step, H.
Qed.

Lemma best_so_far_final q keys :
  best_so_far q keys (fold_left (consider q) keys (None, 0%Q)).
Proof.
  apply (best_so_far_fold q keys [] (None, 0%Q)).
  split; [reflexivity | intros c []].
Qed.

(** The match returned is the first key, in iteration order, whose score
    is maximal, and that score clears the threshold. *)
Lemma find_similar_some q keys c :
  find_similar q keys = Some c ->
  exists before after s,
    keys = before ++ c :: after /\
    calculate_similarity q c = Some s /\
    (threshold < s)%Q /\
    (forall c' s', In c' before -> calculate_similarity q c' = Some s' -> (s' < s)%Q) /\
    (forall c' s', In c' after -> calculate_similarity q c' = Some s' -> (s' <= s)%Q).
Proof.
  unfold find_similar. intros E.
  pose proof (best_so_far_final q keys) as H. unfold best_so_far in H.
  rewrite E in H. destruct H as (before & after & H).
  exists before, after, (snd (fold_left (consider q) keys (None, 0%Q))). exact H.
Qed.

Lemma find_similar_none q keys :
  find_similar q keys = None <->
  forall c s, In c keys -> calculate_similarity q c = Some s -> (s <= threshold)%Q.
Proof.
  split.
  - unfold find_similar. intros E c s Hin Hs.
    pose proof (best_so_far_final q keys) as H. unfold best_so_far in H.
    rewrite E in H. destruct H as [_ H].
    eapply score_gt_false; eauto.
  - intros H. destruct (find_similar q keys) as [c|] eqn:E; [|reflexivity].
    apply find_similar_some in E as (before & after & s & -> & Hs & Ht & _).
    specialize (H c s (in_elt _ _ _) Hs). lra.
Qed.


(** C5.  The score of a candidate is [1 - d / max (len q) (len c)] with [d]
    the edit distance of the two lower-cased strings (it is not a number
    when both strings are empty); a suggestion is a candidate whose score
    is above 0.6 and is not exceeded by any other candidate; there is no
    suggestion exactly when no candidate scores above 0.6, in particular
    when there is no candidate. *)
Theorem C5_similarity_and_suggestion q keys :
  (forall c, exists d,
     edit_distance (toLowerCase q) (toLowerCase c) d /\
     calculate_similarity q c =
     if Nat.max (String.length q) (String.length c) =? 0 then None
     else Some (1 - inject_Z (Z.of_nat d)
                    / inject_Z (Z.of_nat (Nat.max (String.length q) (String.length c))))%Q) /\
  (forall c, find_similar q keys = Some c ->
     In c keys /\
     exists s, calculate_similarity q c = Some s /\ (6 # 10 < s)%Q /\
       forall c' s', In c' keys -> calculate_similarity q c' = Some s' -> (s' <= s)%Q) /\
  (find_similar q keys = None <->
     forall c s, In c keys -> calculate_similarity q c = Some s -> (s <= 6 # 10)%Q) /\
  find_similar q [] = None.
Proof.
  split; [|split; [|split]].
  - intros c.
    exists (lev (list_ascii_of_string (toLowerCase q))
                (list_ascii_of_string (toLowerCase c))).
    split; [apply lev_edit_distance | apply calculate_similarity_lev].
  - intros c H.
    apply find_similar_some in H as (before & after & s & -> & Hs & Ht & Hb & Ha).
    split; [apply in_elt|].
    exists s. repeat split; auto.
    intros c' s' Hin Hs'.
    apply in_app_or in Hin as [Hin|[<-|Hin]].
    + specialize (Hb _ _ Hin Hs'). lra.
    + assert (s' = s) by congruence. subst s'. lra.
    + exact (Ha _ _ Hin Hs').
  - apply find_similar_none.
  - reflexivity.
Qed.

Lemma C5_similarity_and_suggestion_witness :
  In "n8n-nodes-base.httpRequest"
    ["n8n-nodes-base.start"; "n8n-nodes-base.httpRequest"; "n8n-nodes-base.set"] /\
  exists s,
    calculate_similarity "n8n-nodes-base.httpReqeust" "n8n-nodes-base.httpRequest"
    = Some s /\ (6 # 10 < s)%Q /\
    forall c' s',
      In c' ["n8n-nodes-base.start"; "n8n-nodes-base.httpRequest"; "n8n-nodes-base.set"] ->
      calculate_similarity "n8n-nodes-base.httpReqeust" c' = Some s' -> (s' <= s)%Q.
Proof.
  apply (proj1 (proj2 (C5_similarity_and_suggestion "n8n-nodes-base.httpReqeust"
           ["n8n-nodes-base.start"; "n8n-nodes-base.httpRequest"; "n8n-nodes-base.set"]))).
  vm_compute. reflexivity.
Defined.

End SimilarityFacts.





Module RegistryFacts.
Import Registry.

(** *** The map *)



Lemma map_set_not_nil m k v : map_set m k v <> [].
Proof. destruct m as [|[k' v'] m]; simpl; [|destruct (String.eqb k' k)]; discriminate. Qed.


Lemma truthy_some s : truthy (Some s) = true <-> s <> "".
Proof. destruct s; simpl; split; congruence. Qed.

(** *** The loop over the payload *)

Lemma process_node_named reg key node k :
  Remote.name node = Some k -> k <> "" ->
  process_node reg (key, node) =
  match join_group (Remote.group node) with
  | inr _ => inr (map_set reg k (stored_info k node))
  | inl e => inl e
  end.
Proof.
  intros E N. unfold process_node, node_info. simpl. rewrite E.
  apply truthy_some in N. rewrite N.
  unfold stored_info, or_else.
  destruct (Remote.group node); simpl; try reflexivity;
    destruct (Remote.displayName node) as [[|c d]|]; reflexivity.
Qed.

Lemma process_node_unnamed reg key node :
  truthy (Remote.name node) = false -> process_node reg (key, node) = inr reg.
Proof.
  intros T. unfold process_node. simpl.
  destruct (Remote.name node) as [n|]; [now rewrite T | reflexivity].
Qed.

(** What a run of the loop body that does not throw has done. *)
Lemma process_node_done reg key node reg' :
  process_node reg (key, node) = inr reg' ->
  throws (Described node) = false /\
  ((truthy (Remote.name node) = false /\ reg' = reg) \/
   (exists k, Remote.name node = Some k /\ k <> "" /\
              reg' = map_set reg k (stored_info k node))).
Proof.
  intros H. simpl.
  destruct (truthy (Remote.name node)) eqn:T.
  - destruct (Remote.name node) as [k|] eqn:E; [|discriminate].
    apply truthy_some in T.
    rewrite (process_node_named reg key node k E T) in H.
    destruct (join_group (Remote.group node)); [discriminate|].
    inversion H. split; [reflexivity|]. right. exists k. auto.
  - rewrite (process_node_unnamed reg key node T) in H. inversion H.
    split; [reflexivity|]. now left.
Qed.
















Lemma process_node_nil reg key node :
  process_node reg (key, node) = inr [] <->
  reg = [] /\ truthy (Remote.name node) = false.
Proof.
  split.
  - intros H. apply process_node_done in H as [_ [[U E]|(n & _ & _ & E)]].
    + now subst.
    + symmetry in E. now apply map_set_not_nil in E.
  - intros [-> T]. now apply process_node_unnamed.
Qed.

(** The loop ends normally on an empty registry exactly when it started on
    one and stored nothing. *)
Lemma process_entries_empty entries : forall reg,
  process_entries entries reg = ([], None) <->
  reg = [] /\ stores_nothing (Object entries).
Proof.
  induction entries as [|[key [node|]] entries IH]; intros reg; simpl.
  - split.
    + intros H. inversion H. split; [reflexivity | intros k e []].
    + intros [-> _]. reflexivity.
  - split.
    + intros H.
      destruct (process_node reg (key, node)) as [e|reg'] eqn:E; [discriminate|].
      apply IH in H as [-> H]. apply process_node_nil in E as [-> T].
      split; [reflexivity|].
      intros k e [Q|Hin]; [inversion Q; subst; eauto | eauto].
    + intros [-> H].
      destruct (H key (Described node) (or_introl eq_refl)) as (n & Q & T).
      inversion Q; subst n.
      rewrite (process_node_unnamed [] key node T). apply IH.
      split; [reflexivity|]. intros k e Hin. apply (H k e). now right.
  - split; [discriminate|].
    intros [_ H]. destruct (H key Unreadable (or_introl eq_refl)) as (n & E & _).
    discriminate.
Qed.


(** *** [fetch_node_registry] *)

Lemma fetch_failed o now v :
  failed o = true ->
  fetch_node_registry o now v = (Fulfilled, fetch_node_registry_catch now v).
Proof.
  unfold failed, fetch_node_registry, fetch_node_registry_try.
  destruct (remote_data o); [reflexivity | discriminate].
Qed.





Lemma fetch_fulfils o now v : fst (fetch_node_registry o now v) = Fulfilled.
Proof.
  unfold fetch_node_registry.
  destruct (fetch_node_registry_try o now v) as [[e|] v']; reflexivity.
Qed.

Lemma catch_keeps_coordination now v :
  is_fetching (fetch_node_registry_catch now v) = is_fetching v /\
  fetch_promise (fetch_node_registry_catch now v) = fetch_promise v.
Proof.
  unfold fetch_node_registry_catch.
  destruct (map_size (node_registry v) =? 0); simpl; auto.
Qed.

Lemma fetch_keeps_coordination o now v :
  is_fetching (snd (fetch_node_registry o now v)) = is_fetching v /\
  fetch_promise (snd (fetch_node_registry o now v)) = fetch_promise v.
Proof.
  unfold fetch_node_registry, fetch_node_registry_try.
  destruct (remote_data o) as [e|data]; simpl.
  - apply catch_keeps_coordination.
  - destruct (process_payload data []) as [reg [e|]]; simpl; [|auto].
    apply (catch_keeps_coordination now (set_registry (set_registry v []) reg)).
Qed.

Lemma catch_with_data now v :
  node_registry v <> [] -> fetch_node_registry_catch now v = v.
Proof.
  intros H. unfold fetch_node_registry_catch, map_size.
  destruct (node_registry v); [congruence | reflexivity].
Qed.

Lemma catch_without_data now v :
  node_registry v = [] ->
  fetch_node_registry_catch now v =
  {| node_registry := add_fallback_nodes [];
     last_fetch_time := now;
     is_fetching := is_fetching v;
     fetch_promise := fetch_promise v |}.
Proof.
  intros H. unfold fetch_node_registry_catch, map_size. rewrite H. reflexivity.
Qed.


(** The registry after an answer that was parsed. *)
Lemma fetch_json_registry data now v :
  node_registry (snd (fetch_node_registry (Json data) now v)) =
  match process_payload data [] with
  | (reg, None) => reg
  | (reg, Some _) =>
      node_registry (fetch_node_registry_catch now (set_registry (set_registry v []) reg))
  end.
Proof.
  unfold fetch_node_registry, fetch_node_registry_try. simpl.
  destruct (process_payload data []) as [reg [e|]]; reflexivity.
Qed.

Lemma fallback_keys :
  map_keys (add_fallback_nodes []) =
  [ "n8n-nodes-base.start"; "n8n-nodes-base.manualTrigger";
    "n8n-nodes-base.httpRequest"; "n8n-nodes-base.set";
    "n8n-nodes-base.function"; "n8n-nodes-base.if";
    "n8n-nodes-base.switch"; "n8n-nodes-base.merge" ].
Proof. reflexivity. Qed.


(** A payload with an entry the loop cannot read: the registry was
    cleared before the loop threw, so the data it held is gone and the
    [catch] block installs the fallback nodes. *)
Example unreadable_entry :
  fetch_node_registry (Json (Object [("0", Unreadable)])) 5000 Samples.loaded_validator
  = (Fulfilled,
     {| node_registry := add_fallback_nodes []; last_fetch_time := 5000;
        is_fetching := false; fetch_promise := None |}).
Proof. reflexivity. Qed.

(** The entries before the unreadable one stay. *)
Example unreadable_entry_after_webhook :
  map_keys
    (node_registry
       (snd (fetch_node_registry
               (Json (Object [("0", Described Samples.remote_webhook); ("1", Unreadable);
                              ("2", Described Samples.remote_blank_title)]))
               5000 Samples.loaded_validator)))
  = ["n8n-nodes-base.webhook"].
Proof. reflexivity. Qed.

(** *** Claims about the refresh *)

(** C4 (as amended).  When the remote fetch fails while the registry holds
    data, the refresh leaves the validator as it was: the registry, entry
    for entry, and [last_fetch_time] as well, which is not stamped. *)
Theorem C4_failed_refresh_keeps_validator o now v :
  failed o = true -> node_registry v <> [] ->
  fetch_node_registry o now v = (Fulfilled, v) /\
  node_registry (snd (fetch_node_registry o now v)) = node_registry v /\
  last_fetch_time (snd (fetch_node_registry o now v)) = last_fetch_time v.
Proof.
  intros F N. rewrite (fetch_failed o now v F), (catch_with_data now v N).
  auto.
Qed.

Lemma C4_failed_refresh_keeps_validator_witness :
  fetch_node_registry NetworkError 7200000 Samples.loaded_validator
  = (Fulfilled, Samples.loaded_validator).
Proof.
  apply (C4_failed_refresh_keeps_validator NetworkError 7200000
           Samples.loaded_validator).
  - reflexivity.
  - discriminate.
Defined.

(** C4 as stated fails: a fetch that fails at time 7200000 against a
    registry loaded at time 0 leaves [last_fetch_time] at 0. *)
Lemma C4_counterexample :
  failed NetworkError = true /\
  node_registry Samples.loaded_validator <> [] /\
  last_fetch_time
    (snd (fetch_node_registry NetworkError 7200000 Samples.loaded_validator))
  <> 7200000%Z.
Proof. repeat split; discriminate. Qed.







(** C10.  The suggestion is the first key, in the iteration order of the
    registry, whose score is maximal: the keys before it score strictly
    less, the keys after it score at most as much, and its score is above
    the threshold.  It depends on the registry through the sequence of its
    keys only. *)
Theorem C10_first_maximal_key_wins v q :
  (forall c, find_similar_node_type v q = Some c ->
     exists before after s,
       map_keys (node_registry v) = before ++ c :: after /\
       Similarity.calculate_similarity q c = Some s /\
       (Similarity.threshold < s)%Q /\
       (forall c' s', In c' before ->
          Similarity.calculate_similarity q c' = Some s' -> (s' < s)%Q) /\
       (forall c' s', In c' after ->
          Similarity.calculate_similarity q c' = Some s' -> (s' <= s)%Q)) /\
  (forall v', map_keys (node_registry v') = map_keys (node_registry v) ->
     find_similar_node_type v' q = find_similar_node_type v q).
Proof.
  split.
  - intros c H. now apply SimilarityFacts.find_similar_some.
  - intros v' H. unfold find_similar_node_type. now rewrite H.
Qed.

Lemma C10_first_maximal_key_wins_witness :
  Similarity.calculate_similarity "abcd" "abce"
  = Similarity.calculate_similarity "abcd" "abcf" /\
  exists before after s,
    map_keys (node_registry Samples.tied_validator) = before ++ "abce" :: after /\
    Similarity.calculate_similarity "abcd" "abce" = Some s /\
    (Similarity.threshold < s)%Q /\
    (forall c' s', In c' before ->
       Similarity.calculate_similarity "abcd" c' = Some s' -> (s' < s)%Q) /\
    (forall c' s', In c' after ->
       Similarity.calculate_similarity "abcd" c' = Some s' -> (s' <= s)%Q).
Proof.
  split; [reflexivity|].
  apply (proj1 (C10_first_maximal_key_wins Samples.tied_validator "abcd") "abce").
  reflexivity.
Defined.

End RegistryFacts.


Module InterleavingFacts.
Import Registry Interleaving.

Lemma coordinated_boot : coordinated boot.
Proof. left. repeat split. Qed.

Lemma coordinated_cases w :
  coordinated w ->
  (activations w = [] /\ is_fetching (validator w) = false) \/
  (exists p, busy w p /\ p < issued w).
Proof.
  intros [(A & F & P)|(p & ph & A & L & F & P)].
  - left. auto.
  - right. exists p. repeat split; eauto.
Qed.

Lemma enter_busy now next v p :
  is_fetching v = true -> fetch_promise v = Some p ->
  enter now next v = (v, Joins p).
Proof. intros F P. unfold enter. now rewrite F, P. Qed.

Lemma enter_idle now next v :
  is_fetching v = false ->
  enter now next v =
  if cache_valid now v then (v, CacheValid)
  else (set_fetching v true (Some next), Starts next).
Proof. intros F. unfold enter. now rewrite F. Qed.

Lemma coordinated_step w ev w' log :
  coordinated w -> step w ev = Some (w', log) -> coordinated w'.
Proof.
  intros C H. destruct ev as [now|p o now|p]; simpl in H.
  - unfold on_call in H.
    destruct C as [(A & F & P)|(q & ph & A & L & F & P)].
    + rewrite (enter_idle _ _ _ F) in H.
      destruct (cache_valid now (validator w)); inversion H; subst; clear H.
      * left. simpl. auto.
      * right. exists (issued w), InFlight. simpl. rewrite A. repeat split. lia.
    + rewrite (enter_busy _ _ _ _ F P) in H. inversion H; subst; clear H.
      right. exists q, ph. simpl. auto.
  - unfold on_answer in H.
    destruct C as [(A & F & P)|(q & ph & A & L & F & P)]; rewrite A in H; simpl in H.
    + discriminate.
    + destruct (q =? p) eqn:E; [|discriminate].
      destruct ph; [|discriminate].
      pose proof (RegistryFacts.fetch_keeps_coordination o now (validator w)) as [K1 K2].
      destruct (fetch_node_registry o now (validator w)) as [r v] eqn:Ef.
      simpl in H, K1, K2. inversion H; subst; clear H.
      right. exists q, (Done r). simpl. repeat split; congruence.
  - unfold on_resume in H.
    destruct C as [(A & F & P)|(q & ph & A & L & F & P)]; rewrite A in H; simpl in H.
    + discriminate.
    + destruct (q =? p) eqn:E; [|discriminate].
      destruct ph; [discriminate|].
      simpl in H. inversion H; subst; clear H.
      left. simpl. auto.
Qed.

Lemma coordinated_run evs : forall w w' log,
  coordinated w -> run w evs = Some (w', log) -> coordinated w'.
Proof.
  induction evs as [|ev evs IH]; intros w w' log C H; simpl in H.
  - inversion H; subst. exact C.
  - destruct (step w ev) as [[w1 log1]|] eqn:E1; [|discriminate].
    destruct (run w1 evs) as [[w2 log2]|] eqn:E2; [|discriminate].
    inversion H; subst. eapply IH; [|exact E2].
    eapply coordinated_step; eassumption.
Qed.

Lemma coordinated_in_flight w :
  coordinated w -> List.length (in_flight w) <= 1.
Proof.
  intros [(A & _)|(p & ph & A & _)]; unfold in_flight; rewrite A; simpl.
  - lia.
  - destruct ph; simpl; lia.
Qed.

(** While a refresh is outstanding and its starter has not resumed, every
    caller joins it and no fetch is issued. *)
Lemma busy_window evs : forall w p w' log,
  busy w p -> no_resume evs = true -> run w evs = Some (w', log) ->
  busy w' p /\ issued w' = issued w /\ log = repeat (Joins p) (count_calls evs).
Proof.
  induction evs as [|ev evs IH]; intros w p w' log B N H; simpl in H.
  - inversion H; subst. auto.
  - simpl in N. apply andb_true_iff in N as [N1 N2].
    destruct (step w ev) as [[w1 log1]|] eqn:E1; [|discriminate].
    destruct (run w1 evs) as [[w2 log2]|] eqn:E2; [|discriminate].
    inversion H; subst; clear H.
    assert (S1 : busy w1 p /\ issued w1 = issued w /\
                 log1 = repeat (Joins p) (if is_call ev then 1 else 0)).
    { destruct B as ((ph & A) & F & P).
      destruct ev as [now|q o now|q]; simpl in E1, N1; [| |discriminate].
      - unfold on_call in E1. rewrite (enter_busy _ _ _ _ F P) in E1.
        inversion E1; subst; clear E1. simpl.
        repeat split; eauto.
      - unfold on_answer in E1. rewrite A in E1. simpl in E1.
        destruct (p =? q) eqn:E; [|discriminate].
        destruct ph; [|discriminate].
        pose proof (RegistryFacts.fetch_keeps_coordination o now (validator w)) as [K1 K2].
        destruct (fetch_node_registry o now (validator w)) as [r v] eqn:Ef.
        simpl in E1, K1, K2. inversion E1; subst; clear E1. simpl.
        unfold busy. simpl. repeat split; eauto; congruence. }
    destruct S1 as (B1 & I1 & L1).
    destruct (IH w1 p w' log2 B1 N2 E2) as (B2 & I2 & L2).
    repeat split; try apply B2; try congruence.
    subst log1 log2. rewrite <- repeat_app. f_equal.
    unfold count_calls. simpl. destruct (is_call ev); reflexivity.
Qed.

(** C1.  In every world the program can reach at most one refresh is in
    flight.  When a caller arrives while a refresh is outstanding or the
    cache is stale, and further callers arrive before the [finally] block
    of the refresh has run, whether before or after the remote end
    answers, all of them await one and the same promise [p]: the first
    caller joins the outstanding refresh or, when there is none, starts
    fetch [p], every later caller joins [p], and the number of fetches
    issued for them together with the one outstanding at the start is
    exactly one. *)
Theorem C1_single_flight evs0 w0 log0 :
  run boot evs0 = Some (w0, log0) ->
  List.length (in_flight w0) <= 1 /\
  forall now evs w log,
    no_resume evs = true ->
    run w0 (Call now :: evs) = Some (w, log) ->
    activations w0 <> [] \/ cache_valid now (validator w0) = false ->
    exists p,
      log = (match activations w0 with [] => Starts p | _ => Joins p end)
            :: repeat (Joins p) (count_calls evs) /\
      issued w + List.length (activations w0) = S (issued w0) /\
      map fst (activations w) = [p] /\
      List.length (in_flight w) <= 1.
Proof.
  intros R0.
  assert (C0 : coordinated w0) by (eapply coordinated_run; [apply coordinated_boot | exact R0]).
  split; [now apply coordinated_in_flight|].
  intros now evs w log N R H.
  assert (Cw : coordinated w) by (eapply coordinated_run; [exact C0 | exact R]).
  simpl in R. unfold on_call in R.
  destruct (coordinated_cases w0 C0) as [(A & F)|(p & B & L)].
  - destruct H as [H|H]; [congruence|].
    rewrite (enter_idle _ _ _ F), H in R.
    match type of R with
    | match run ?x evs with _ => _ end = _ => set (w1 := x) in R
    end.
    destruct (run w1 evs) as [[w2 log2]|] eqn:E2; [|discriminate].
    inversion R; subst w2 log; clear R.
    assert (B1 : busy w1 (issued w0)).
    { subst w1. unfold busy. simpl. rewrite A. simpl. repeat split; eauto. }
    destruct (busy_window evs w1 (issued w0) w log2 B1 N E2) as (B2 & I2 & L2).
    exists (issued w0). rewrite A. simpl.
    repeat split.
    + now rewrite L2.
    + rewrite I2. subst w1. simpl. lia.
    + destruct B2 as ((ph & A2) & _). now rewrite A2.
    + now apply coordinated_in_flight.
  - destruct B as ((ph & A) & F & P).
    rewrite (enter_busy _ _ _ _ F P) in R.
    match type of R with
    | match run ?x evs with _ => _ end = _ => set (w1 := x) in R
    end.
    destruct (run w1 evs) as [[w2 log2]|] eqn:E2; [|discriminate].
    inversion R; subst w2 log; clear R.
    assert (B1 : busy w1 p).
    { subst w1. unfold busy. simpl. repeat split; eauto. }
    destruct (busy_window evs w1 p w log2 B1 N E2) as (B2 & I2 & L2).
    exists p. rewrite A. simpl.
    repeat split.
    + now rewrite L2.
    + rewrite I2. subst w1. simpl. lia.
    + destruct B2 as ((ph2 & A2) & _). now rewrite A2.
    + now apply coordinated_in_flight.
Qed.

Lemma C1_single_flight_witness :
  List.length (in_flight (world_after boot Samples.earlier_refresh)) <= 1 /\
  exists p,
    log_after (world_after boot Samples.earlier_refresh)
      (Call 4000000 :: Samples.late_callers)
    = Starts p :: repeat (Joins p) 3 /\
    issued (world_after (world_after boot Samples.earlier_refresh)
              (Call 4000000 :: Samples.late_callers)) + 0
    = S (issued (world_after boot Samples.earlier_refresh)) /\
    map fst (activations (world_after (world_after boot Samples.earlier_refresh)
                            (Call 4000000 :: Samples.late_callers))) = [p] /\
    List.length (in_flight (world_after (world_after boot Samples.earlier_refresh)
                   (Call 4000000 :: Samples.late_callers))) <= 1.
Proof.
  destruct (C1_single_flight Samples.earlier_refresh
              (world_after boot Samples.earlier_refresh)
              (log_after boot Samples.earlier_refresh) eq_refl) as [H1 H2].
  split; [exact H1|].
  apply (H2 4000000%Z Samples.late_callers
           (world_after (world_after boot Samples.earlier_refresh)
              (Call 4000000 :: Samples.late_callers))
           (log_after (world_after boot Samples.earlier_refresh)
              (Call 4000000 :: Samples.late_callers))).
  - reflexivity.
  - reflexivity.
  - right. reflexivity.
Defined.

End InterleavingFacts.

Module ApiFacts.
Import Registry Api.

Lemma ensure_never_throws env r :
  fst (ensure_node_registry_is_loaded env r) = inr tt.
Proof.
  unfold ensure_node_registry_is_loaded.
  destruct (enter (now (env (calls r))) (fetches r) (this r)) as [v1 [p| |p]];
    try reflexivity;
    pose proof (RegistryFacts.fetch_fulfils (answer (env (calls r)))
                  (answered_at (env (calls r))) v1) as F;
    destruct (fetch_node_registry (answer (env (calls r)))
                (answered_at (env (calls r))) v1) as [settled v2];
    simpl in F; subst settled; reflexivity.
Qed.

(** A caller that finds a fetch under way goes on with what that fetch
    and the [finally] block of its starter leave, and issues no fetch. *)
Lemma ensure_joins env r p :
  is_fetching (this r) = true -> fetch_promise (this r) = Some p ->
  ensure_node_registry_is_loaded env r =
  (inr tt,
   {| this := leave (snd (fetch_node_registry (answer (env (calls r)))
                            (answered_at (env (calls r))) (this r)));
      calls := S (calls r); fetches := fetches r |}).
Proof.
  intros I P. unfold ensure_node_registry_is_loaded, enter. rewrite I, P.
  pose proof (RegistryFacts.fetch_fulfils (answer (env (calls r)))
                (answered_at (env (calls r))) (this r)) as F.
  destruct (fetch_node_registry (answer (env (calls r)))
              (answered_at (env (calls r))) (this r)) as [settled v2].
  simpl in F. subst settled. reflexivity.
Qed.

(** An idle validator with a stale cache: the call fetches, and leaves
    what [fetch_node_registry] leaves. *)
Lemma ensure_stale env r :
  is_fetching (this r) = false ->
  cache_valid (now (env (calls r))) (this r) = false ->
  ensure_node_registry_is_loaded env r =
  (inr tt,
   {| this := leave (snd (fetch_node_registry (answer (env (calls r)))
                            (answered_at (env (calls r)))
                            (set_fetching (this r) true (Some (fetches r)))));
      calls := S (calls r); fetches := S (fetches r) |}).
Proof.
  intros I C. unfold ensure_node_registry_is_loaded.
  rewrite (InterleavingFacts.enter_idle _ _ _ I), C.
  pose proof (RegistryFacts.fetch_fulfils (answer (env (calls r)))
                (answered_at (env (calls r)))
                (set_fetching (this r) true (Some (fetches r)))) as F.
  destruct (fetch_node_registry (answer (env (calls r)))
              (answered_at (env (calls r)))
              (set_fetching (this r) true (Some (fetches r)))) as [settled v2].
  simpl in F. subst settled. reflexivity.
Qed.

(** An idle validator with a valid cache: the call returns at once. *)
Lemma ensure_valid env r :
  is_fetching (this r) = false ->
  cache_valid (now (env (calls r))) (this r) = true ->
  ensure_node_registry_is_loaded env r =
  (inr tt, {| this := this r; calls := S (calls r); fetches := fetches r |}).
Proof.
  intros I C. unfold ensure_node_registry_is_loaded.
  now rewrite (InterleavingFacts.enter_idle _ _ _ I), C.
Qed.

(** A caller that arrives while the first fetch is under way reads the
    registry that this fetch loads, and has issued no fetch. *)
Example joined_refresh :
  get_available_node_types Samples.remote_up (start Samples.busy_validator) =
  (inr ["a.valid"; "a.valid2"],
   {| this := this (snd (ensure_node_registry_is_loaded Samples.remote_up
                           (start new_validator)));
      calls := 1; fetches := 0 |}).
Proof. reflexivity. Qed.

Lemma leave_idle v : is_fetching (leave v) = false.
Proof. reflexivity. Qed.

Lemma ensure_counts env r :
  let r' := snd (ensure_node_registry_is_loaded env r) in
  calls r' = S (calls r) /\ fetches r <= fetches r' <= S (fetches r) /\
  (is_fetching (this r) = false -> is_fetching (this r') = false).
Proof.
  simpl. destruct (is_fetching (this r)) eqn:I.
  - destruct (fetch_promise (this r)) as [p|] eqn:P.
    + rewrite (ensure_joins env r p I P). simpl.
      repeat split; try lia; try discriminate.
    + unfold ensure_node_registry_is_loaded, enter. rewrite I, P.
      destruct (cache_valid (now (env (calls r))) (this r)).
      * simpl. repeat split; try lia; try discriminate.
      * destruct (fetch_node_registry _ _ _) as [[|e] v2]; simpl;
          repeat split; try lia; try discriminate.
  - destruct (cache_valid (now (env (calls r))) (this r)) eqn:C.
    + rewrite (ensure_valid env r I C). simpl. repeat split; try lia; auto.
    + rewrite (ensure_stale env r I C). simpl. repeat split; try lia; auto.
Qed.

(** *** Reading the registry after a failed fetch *)

Lemma names_after_failure env r :
  is_fetching (this r) = false ->
  failed (answer (env (calls r))) = true ->
  fst (get_available_node_types env r) =
  inr (map_keys (if map_size (node_registry (this r)) =? 0
                 then add_fallback_nodes []
                 else node_registry (this r))).
Proof.
  intros I F. unfold get_available_node_types, then_.
  destruct (cache_valid (now (env (calls r))) (this r)) eqn:C.
  - rewrite (ensure_valid env r I C). simpl.
    unfold cache_valid in C. apply andb_true_iff in C as [C _].
    destruct (map_size (node_registry (this r))); [discriminate | reflexivity].
  - rewrite (ensure_stale env r I C). simpl.
    rewrite (RegistryFacts.fetch_failed _ _ _ F). simpl.
    unfold fetch_node_registry_catch. simpl.
    destruct (node_registry (this r)) eqn:E; simpl; [reflexivity|].
    now rewrite E.
Qed.

(** *** The batch *)

Lemma validate_node_type_run env t r :
  validate_node_type env t r =
  let r' := snd (ensure_node_registry_is_loaded env r) in
  (inr (if map_has (node_registry (this r')) t
        then {| Validation.valid := true; Validation.suggestion := None |}
        else {| Validation.valid := false;
                Validation.suggestion := find_similar_node_type (this r') t |}),
   r').
Proof.
  unfold validate_node_type, then_.
  pose proof (ensure_never_throws env r) as H.
  destruct (ensure_node_registry_is_loaded env r) as [[e|[]] r']; simpl in *;
    [discriminate|].
  destruct (map_has (node_registry (this r')) t); reflexivity.
Qed.

Lemma validate_each_run env nodes : forall acc r,
  validate_each env nodes acc r =
  (inr (acc ++ verdicts env r nodes), ensured env (List.length nodes) r).
Proof.
  induction nodes as [|node rest IH]; intros acc r; simpl.
  - unfold ret. now rewrite app_nil_r.
  - unfold then_ at 1. rewrite validate_node_type_run. simpl.
    unfold verdict.
    destruct (map_has (node_registry
                (this (snd (ensure_node_registry_is_loaded env r))))
                (Workflow.type node)); simpl.
    + apply IH.
    + rewrite IH, <- app_assoc. reflexivity.
Qed.

Lemma validate_workflow_nodes_run env nodes r :
  validate_workflow_nodes env nodes r =
  (inr (verdicts env (snd (ensure_node_registry_is_loaded env r)) nodes),
   ensured env (S (List.length nodes)) r).
Proof.
  unfold validate_workflow_nodes, then_.
  pose proof (ensure_never_throws env r) as H.
  destruct (ensure_node_registry_is_loaded env r) as [[e|[]] r'] eqn:E; simpl in *;
    [discriminate|].
  rewrite validate_each_run, E. reflexivity.
Qed.

Lemma verdicts_one_registry v nodes :
  flat_map (verdict v) nodes =
  map (fun node => {| Invalid.node_type := Workflow.type node;
                      Invalid.suggestion :=
                        find_similar_node_type v (Workflow.type node) |})
    (filter (fun node => negb (map_has (node_registry v) (Workflow.type node))) nodes).
Proof.
  induction nodes as [|node rest IH]; simpl; [reflexivity|].
  unfold verdict at 1.
  destruct (map_has (node_registry v) (Workflow.type node)); simpl; now rewrite IH.
Qed.

(** While the cache stays valid, the calls neither fetch nor change the
    validator. *)
Lemma valid_cache_window env nodes : forall r,
  is_fetching (this r) = false ->
  (forall k, k < List.length nodes ->
     cache_valid (now (env (calls r + k))) (this r) = true) ->
  verdicts env r nodes = flat_map (verdict (this r)) nodes /\
  ensured env (List.length nodes) r =
  {| this := this r; calls := calls r + List.length nodes; fetches := fetches r |}.
Proof.
  induction nodes as [|node rest IH]; intros r I H; simpl.
  - split; [reflexivity|]. destruct r; simpl. f_equal. lia.
  - assert (C : cache_valid (now (env (calls r))) (this r) = true).
    { specialize (H 0 ltac:(simpl; lia)). now rewrite Nat.add_0_r in H. }
    rewrite (ensure_valid env r I C). simpl.
    destruct (IH {| this := this r; calls := S (calls r); fetches := fetches r |})
      as [V E]; simpl.
    + exact I.
    + intros k Hk. specialize (H (S k) ltac:(simpl; lia)).
      replace (S (calls r + k)) with (calls r + S k) by lia. exact H.
    + simpl in V, E. rewrite V, E. split; [reflexivity|]. f_equal. lia.
Qed.


(** While the registry holds data that has expired and the remote end
    fails, every call fetches, and leaves the validator as it was. *)
Lemma expired_cache_window env n : forall r,
  is_fetching (this r) = false -> fetch_promise (this r) = None ->
  node_registry (this r) <> [] ->
  (forall k, k < n ->
     failed (answer (env (calls r + k))) = true /\
     cache_valid (now (env (calls r + k))) (this r) = false) ->
  ensured env n r =
  {| this := this r; calls := calls r + n; fetches := fetches r + n |}.
Proof.
  induction n as [|n IH]; intros r I P N H; simpl.
  - destruct r; simpl. f_equal; lia.
  - destruct (H 0 ltac:(lia)) as [F C]. rewrite Nat.add_0_r in F, C.
    rewrite (ensure_stale env r I C), (RegistryFacts.fetch_failed _ _ _ F).
    simpl snd. rewrite RegistryFacts.catch_with_data by exact N.
    assert (E : leave (set_fetching (this r) true (Some (fetches r))) = this r).
    { destruct (this r); simpl in *. subst. reflexivity. }
    rewrite E.
    rewrite (IH {| this := this r; calls := S (calls r); fetches := S (fetches r) |});
      simpl; auto; try (f_equal; lia).
    intros k Hk. specialize (H (S k) ltac:(lia)).
    replace (S (calls r + k)) with (calls r + S k) by lia. exact H.
Qed.

(** C3.  [ensure_node_registry_is_loaded] never throws, and the promise
    of [fetch_node_registry] is fulfilled whatever the remote end answers.
    When the remote fetch fails, a registry that holds data is kept, and
    into an empty registry the eight fallback nodes are installed.  Accordingly, after a failing
    fetch [get_available_node_types] returns the eight fallback names when
    there was no data, and the names of the stale data when there was. *)
Theorem C3_fetch_failure_is_absorbed env r :
  fst (ensure_node_registry_is_loaded env r) = inr tt /\
  (forall o now v,
     fst (fetch_node_registry o now v) = Fulfilled /\
     (failed o = true -> node_registry v <> [] ->
      node_registry (snd (fetch_node_registry o now v)) = node_registry v) /\
     (failed o = true -> node_registry v = [] ->
      map_keys (node_registry (snd (fetch_node_registry o now v))) =
      [ "n8n-nodes-base.start"; "n8n-nodes-base.manualTrigger";
        "n8n-nodes-base.httpRequest"; "n8n-nodes-base.set";
        "n8n-nodes-base.function"; "n8n-nodes-base.if";
        "n8n-nodes-base.switch"; "n8n-nodes-base.merge" ])) /\
  (is_fetching (this r) = false -> failed (answer (env (calls r))) = true ->
     (node_registry (this r) = [] ->
      fst (get_available_node_types env r) =
      inr [ "n8n-nodes-base.start"; "n8n-nodes-base.manualTrigger";
            "n8n-nodes-base.httpRequest"; "n8n-nodes-base.set";
            "n8n-nodes-base.function"; "n8n-nodes-base.if";
            "n8n-nodes-base.switch"; "n8n-nodes-base.merge" ]) /\
     (node_registry (this r) <> [] ->
      fst (get_available_node_types env r) = inr (map_keys (node_registry (this r))))).
Proof.
  split; [apply ensure_never_throws|]. split.
  - intros o now v. split; [apply RegistryFacts.fetch_fulfils|]. split.
    + intros F N. rewrite (RegistryFacts.fetch_failed o now v F). simpl.
      now rewrite RegistryFacts.catch_with_data.
    + intros F E. rewrite (RegistryFacts.fetch_failed o now v F). simpl.
      now rewrite (RegistryFacts.catch_without_data now v E).
  - intros I F. rewrite (names_after_failure env r I F). split.
    + intros E. rewrite E. reflexivity.
    + intros N. unfold map_size. destruct (node_registry (this r)); [congruence|reflexivity].
Qed.

Lemma C3_fetch_failure_is_absorbed_witness :
  fst (get_available_node_types Samples.remote_down (start new_validator)) =
  inr [ "n8n-nodes-base.start"; "n8n-nodes-base.manualTrigger";
        "n8n-nodes-base.httpRequest"; "n8n-nodes-base.set";
        "n8n-nodes-base.function"; "n8n-nodes-base.if";
        "n8n-nodes-base.switch"; "n8n-nodes-base.merge" ].
Proof.
  apply (proj2 (proj2 (C3_fetch_failure_is_absorbed Samples.remote_down
                         (start new_validator)))); reflexivity.
Defined.

(** The calls in a row, taken from the last. *)
Lemma ensured_end env n : forall r,
  ensured env (S n) r = snd (ensure_node_registry_is_loaded env (ensured env n r)).
Proof.
  induction n as [|n IH]; intros r; [reflexivity|].
  change (ensured env (S (S n)) r)
    with (ensured env (S n) (snd (ensure_node_registry_is_loaded env r))).
  now rewrite IH.
Qed.

Lemma ensured_idle env n : forall r,
  is_fetching (this r) = false ->
  calls (ensured env n r) = calls r + n /\
  is_fetching (this (ensured env n r)) = false.
Proof.
  induction n as [|n IH]; intros r I; simpl.
  - split; [lia | exact I].
  - pose proof (ensure_counts env r) as (Hc & _ & Hi). simpl in Hc, Hi.
    destruct (IH (snd (ensure_node_registry_is_loaded env r)) (Hi I)) as [C I'].
    split; [lia | exact I'].
Qed.

(** A call that finds no fetch under way issues one exactly when the
    cache is not valid. *)
Lemma ensure_fetches env r :
  is_fetching (this r) = false ->
  fetches (snd (ensure_node_registry_is_loaded env r)) =
  fetches r + (if cache_valid (now (env (calls r))) (this r) then 0 else 1).
Proof.
  intros I. destruct (cache_valid (now (env (calls r))) (this r)) eqn:C.
  - rewrite (ensure_valid env r I C). simpl. lia.
  - rewrite (ensure_stale env r I C). simpl. lia.
Qed.

(** An answer that stores nothing leaves an empty registry. *)
Lemma fetch_stores_nothing data now v :
  stores_nothing data ->
  node_registry (snd (fetch_node_registry (Json data) now v)) = [].
Proof.
  intros H. rewrite RegistryFacts.fetch_json_registry.
  destruct data as [|entries]; simpl; [reflexivity|].
  assert (P : process_entries entries [] = ([], None))
    by (apply RegistryFacts.process_entries_empty; auto).
  now rewrite P.
Qed.

(** While the remote end answers with payloads that store nothing, every
    call fetches, and leaves an empty registry. *)
Lemma empty_payload_window env n : forall r,
  is_fetching (this r) = false ->
  cache_valid (now (env (calls r))) (this r) = false ->
  (forall k, k < S n ->
     exists data, answer (env (calls r + k)) = Json data /\ stores_nothing data) ->
  node_registry (this (ensured env (S n) r)) = [] /\
  fetches (ensured env (S n) r) = fetches r + S n.
Proof.
  induction n as [|n IH]; intros r I C H.
  - destruct (H 0 ltac:(lia)) as (data & A & N). rewrite Nat.add_0_r in A.
    simpl. rewrite (ensure_stale env r I C), A. simpl.
    split; [now apply fetch_stores_nothing | lia].
  - destruct (H 0 ltac:(lia)) as (data & A & N). rewrite Nat.add_0_r in A.
    change (ensured env (S (S n)) r)
      with (ensured env (S n) (snd (ensure_node_registry_is_loaded env r))).
    rewrite (ensure_stale env r I C), A. simpl snd.
    match goal with
    | |- context [ensured env (S n) ?r1] => destruct (IH r1) as [E F]
    end.
    + reflexivity.
    + unfold cache_valid. simpl.
      rewrite (fetch_stores_nothing data _ _ N). reflexivity.
    + intros k Hk. simpl. specialize (H (S k) ltac:(lia)).
      replace (S (calls r + k)) with (calls r + S k) by lia. exact H.
    + split; [exact E|]. rewrite F. simpl. lia.
Qed.

(** The remote end fails over stale data and then recovers: of the four
    calls that a batch of three nodes makes, the first two fetch. *)
Example recovering_remote :
  snd (validate_workflow_nodes Samples.remote_recovers Samples.batch
         (start Samples.loaded_validator))
  = {| this := this (ensured Samples.remote_recovers 2 (start Samples.loaded_validator));
       calls := 4; fetches := 2 |}.
Proof. reflexivity. Qed.

(** C6 (as amended).  [validate_workflow_nodes] calls
    [ensure_node_registry_is_loaded] once up front and once more for each
    node, judges each node against the validator its own call leaves, and
    returns one entry [{node_type, suggestion}] for each node whose type
    is not a key of the registry, in input order and without merging
    repeated types.  When no refresh is outstanding at the start, each of
    these calls issues a fetch exactly when it finds the cache not valid,
    that is, the registry empty or an hour old.  When the cache left by the
    call up front stays valid for the calls that follow, none of these
    issues a fetch: the batch issues at most the one fetch of the call up
    front, all nodes are judged against the same registry, and the result
    is the input filtered by validity.  When instead every call finds data
    that has expired and a remote end that fails, or the cache is not
    valid at the start and every answer is a payload that stores nothing,
    the call up front and the call for each node issue a fetch each. *)
Theorem C6_batch_validation env nodes r :
  let r1 := snd (ensure_node_registry_is_loaded env r) in
  validate_workflow_nodes env nodes r =
    (inr (verdicts env r1 nodes), ensured env (S (List.length nodes)) r) /\
  (is_fetching (this r) = false ->
   forall k, k <= List.length nodes ->
     calls (ensured env k r) = calls r + k /\
     fetches (ensured env (S k) r) =
       fetches (ensured env k r) +
       (if cache_valid (now (env (calls r + k))) (this (ensured env k r))
        then 0 else 1)) /\
  (is_fetching (this r) = false ->
   (forall k, k < List.length nodes ->
      cache_valid (now (env (calls r1 + k))) (this r1) = true) ->
   validate_workflow_nodes env nodes r =
     (inr (map (fun node =>
                  {| Invalid.node_type := Workflow.type node;
                     Invalid.suggestion :=
                       find_similar_node_type (this r1) (Workflow.type node) |})
             (filter (fun node =>
                        negb (map_has (node_registry (this r1)) (Workflow.type node)))
                nodes)),
      {| this := this r1; calls := calls r1 + List.length nodes;
         fetches := fetches r1 |}) /\
   fetches r1 <= S (fetches r)) /\
  (is_fetching (this r) = false -> fetch_promise (this r) = None ->
   node_registry (this r) <> [] ->
   (forall k, k < S (List.length nodes) ->
      failed (answer (env (calls r + k))) = true /\
      cache_valid (now (env (calls r + k))) (this r) = false) ->
   snd (validate_workflow_nodes env nodes r) =
   {| this := this r; calls := calls r + S (List.length nodes);
      fetches := fetches r + S (List.length nodes) |}) /\
  (is_fetching (this r) = false ->
   cache_valid (now (env (calls r))) (this r) = false ->
   (forall k, k < S (List.length nodes) ->
      exists data, answer (env (calls r + k)) = Json data /\ stores_nothing data) ->
   node_registry (this (snd (validate_workflow_nodes env nodes r))) = [] /\
   fetches (snd (validate_workflow_nodes env nodes r))
   = fetches r + S (List.length nodes)).
Proof.
  cbv zeta. split; [apply validate_workflow_nodes_run|]. split; [|split; [|split]].
  - intros I k Hk. destruct (ensured_idle env k r I) as [C I'].
    split; [exact C|].
    rewrite ensured_end, (ensure_fetches env _ I'), C. reflexivity.
  - intros I H.
    pose proof (ensure_counts env r) as (_ & Hf & Hi). simpl in Hf, Hi.
    split; [|lia].
    rewrite validate_workflow_nodes_run. simpl.
    destruct (valid_cache_window env nodes
                (snd (ensure_node_registry_is_loaded env r)) (Hi I) H) as [V E].
    now rewrite V, E, verdicts_one_registry.
  - intros I P N H. rewrite validate_workflow_nodes_run.
    apply (expired_cache_window env (S (List.length nodes)) r I P N H).
  - intros I C H. rewrite validate_workflow_nodes_run.
    apply (empty_payload_window env (List.length nodes) r I C H).
Qed.

Lemma C6_batch_validation_witness :
  (validate_workflow_nodes Samples.remote_up Samples.batch (start new_validator) =
     (inr [{| Invalid.node_type := "a.invalid"; Invalid.suggestion := Some "a.valid" |}],
      {| this := this (snd (ensure_node_registry_is_loaded Samples.remote_up
                              (start new_validator)));
         calls := 4; fetches := 1 |}) /\
   fetches (snd (ensure_node_registry_is_loaded Samples.remote_up (start new_validator)))
   <= 1) /\
  snd (validate_workflow_nodes Samples.remote_down Samples.batch
         (start Samples.loaded_validator))
  = {| this := Samples.loaded_validator; calls := 4; fetches := 4 |} /\
  fetches (snd (validate_workflow_nodes Samples.remote_empty Samples.batch
                  (start new_validator)))
  = 4 /\
  fetches (ensured Samples.remote_recovers 2 (start Samples.loaded_validator))
  = fetches (ensured Samples.remote_recovers 1 (start Samples.loaded_validator)) + 1.
Proof.
  split; [|split; [|split]].
  - apply (proj1 (proj2 (proj2 (C6_batch_validation Samples.remote_up Samples.batch
                                  (start new_validator))))).
    + reflexivity.
    + intros k Hk.
      destruct k as [|[|[|k]]]; [reflexivity | reflexivity | reflexivity |].
      simpl in Hk. lia.
  - apply (proj1 (proj2 (proj2 (proj2 (C6_batch_validation Samples.remote_down
                                         Samples.batch
                                         (start Samples.loaded_validator)))))).
    + reflexivity.
    + reflexivity.
    + discriminate.
    + intros k Hk. split; reflexivity.
  - apply (proj2 (proj2 (proj2 (proj2 (C6_batch_validation Samples.remote_empty
                                         Samples.batch
                                         (start new_validator)))))).
    + reflexivity.
    + reflexivity.
    + intros k Hk. exists (Object []). split; [reflexivity|]. intros key entry [].
  - apply (proj1 (proj2 (C6_batch_validation Samples.remote_recovers Samples.batch
                           (start Samples.loaded_validator)))
             eq_refl 1).
    simpl. lia.
Defined.

(** C6 as stated fails: when the registry is an hour old and the remote
    end is down, the call up front fetches and so does the call made for
    each of the three nodes. *)
Lemma C6_counterexample :
  fetches (snd (validate_workflow_nodes Samples.remote_down Samples.batch
                  (start Samples.loaded_validator)))
  = 1 + List.length Samples.batch.
Proof. reflexivity. Qed.

End ApiFacts.


Module BudgeterFacts.
Import Budgeter.

Example stringify_small :
  stringify (JObj [("a", JNum 1); ("b", JArr [JBool true; JUndefined]); ("c", JUndefined)])
  = Some ("{" ++ nl ++ "  " ++ dquote ++ "a" ++ dquote ++ ": 1," ++ nl ++
          "  " ++ dquote ++ "b" ++ dquote ++ ": [" ++ nl ++
          "    true," ++ nl ++ "    null" ++ nl ++ "  ]" ++ nl ++ "}")%string.
Proof. reflexivity. Qed.

Example marker_length : String.length TRUNCATION_MESSAGE = 106.
Proof. reflexivity. Qed.

Example projection_of_bulky :
  truncateResponse Samples.bulky_executions
  = Some ("{" ++ nl ++ "  " ++ dquote ++ "data" ++ dquote ++ ": [" ++ nl ++
          "    {" ++ nl ++
          "      " ++ dquote ++ "id" ++ dquote ++ ": 1," ++ nl ++
          "      " ++ dquote ++ "status" ++ dquote ++ ": " ++ dquote ++ "success" ++ dquote ++ "," ++ nl ++
          "      " ++ dquote ++ "dataSummary" ++ dquote ++ ": " ++ dquote ++ "1 nodes executed" ++ dquote ++ nl ++
          "    }" ++ nl ++ "  ]," ++ nl ++
          "  " ++ dquote ++ "nextCursor" ++ dquote ++ ": null" ++ nl ++ "}"
          ++ TRUNCATION_MESSAGE)%string.
Proof. vm_compute. reflexivity. Qed.


(** *** Strings *)

Lemma append_assoc (a b c : string) : ((a ++ b) ++ c = a ++ (b ++ c))%string.
Proof. induction a as [|x a IH]; simpl; [|rewrite IH]; reflexivity. Qed.

Lemma length_append (a b : string) :
  String.length (a ++ b) = String.length a + String.length b.
Proof. induction a as [|x a IH]; simpl; [|rewrite IH]; reflexivity. Qed.

Lemma length_substring_0 n : forall s,
  String.length (substring 0 n s) = Nat.min n (String.length s).
Proof.
  induction n as [|n IH]; intros [|c s]; simpl; auto.
Qed.

Lemma list_ascii_append (a b : string) :
  list_ascii_of_string (a ++ b)
  = list_ascii_of_string a ++ list_ascii_of_string b.
Proof. induction a as [|x a IH]; simpl; [|rewrite IH]; reflexivity. Qed.

Lemma starts_with_app p r : starts_with p (p ++ r) = true.
Proof.
  induction p as [|a p IH]; simpl; [reflexivity|].
  now rewrite Ascii.eqb_refl.
Qed.

Lemma endsWith_append t m : endsWith (t ++ m) m = true.
Proof.
  unfold endsWith. rewrite list_ascii_append, rev_app_distr.
  apply starts_with_app.
Qed.

Lemma ends_in_refl s : ends_in s s.
Proof. now exists EmptyString. Qed.

Lemma ends_in_app pre s t : ends_in s t -> ends_in (pre ++ s) t.
Proof. intros [p ->]. exists (pre ++ p)%string. now rewrite append_assoc. Qed.

Lemma marker_reversed :
  exists rest,
    rev (list_ascii_of_string TRUNCATION_MESSAGE) = "]"%char :: "."%char :: rest.
Proof. eexists. vm_compute. reflexivity. Qed.

Lemma ends_in_cons c s t : ends_in s t -> ends_in (String c s) t.
Proof. apply (ends_in_app (String c "") s t). Qed.

Ltac ends_in_suffix :=
  repeat first [apply ends_in_refl | apply ends_in_cons | apply ends_in_app].

(** A string whose last character is not the bracket that closes the
    marker does not end with the marker. *)
Lemma no_marker_last s d :
  ends_in s (String d "") -> d <> "]"%char ->
  endsWith s TRUNCATION_MESSAGE = false.
Proof.
  intros [pre ->] N. unfold endsWith.
  rewrite list_ascii_append, rev_app_distr.
  destruct marker_reversed as [rest ->].
  change (rev (list_ascii_of_string (String d ""))) with [d].
  cbn [app starts_with].
  apply Ascii.eqb_neq in N. rewrite Ascii.eqb_sym in N. now rewrite N.
Qed.

(** Nor does a string whose last character but one is not a full stop. *)
Lemma no_marker_last_but_one s c d :
  ends_in s (String c (String d "")) -> c <> "."%char ->
  endsWith s TRUNCATION_MESSAGE = false.
Proof.
  intros [pre ->] N. unfold endsWith.
  rewrite list_ascii_append, rev_app_distr.
  destruct marker_reversed as [rest ->].
  change (rev (list_ascii_of_string (String c (String d "")))) with [d; c].
  cbn [app starts_with].
  apply Ascii.eqb_neq in N. rewrite Ascii.eqb_sym in N. rewrite N.
  now rewrite andb_false_r.
Qed.

(** *** The token estimate *)

Lemma div7 (n : nat) : 7 * (n / 7) <= n < 7 * (n / 7) + 7.
Proof.
  pose proof (Nat.div_mod_eq n 7). pose proof (Nat.mod_upper_bound n 7). lia.
Qed.

Lemma within_budget_length s :
  estimateTokenCount s <= MAX_RESPONSE_TOKENS <-> String.length s <= 28 * 1000.
Proof.
  unfold estimateTokenCount, MAX_RESPONSE_TOKENS.
  pose proof (div7 (2 * String.length s + 6)). lia.
Qed.

Lemma hard_truncate_over_budget jsonString :
  MAX_RESPONSE_TOKENS < estimateTokenCount jsonString ->
  MAX_RESPONSE_TOKENS < estimateTokenCount (hard_truncate jsonString).
Proof.
  intros H.
  assert (L : 28 * 1000 < String.length jsonString).
  { destruct (Nat.le_gt_cases (String.length jsonString) (28 * 1000)) as [G|G]; [|exact G].
    apply within_budget_length in G. lia. }
  destruct (Nat.le_gt_cases (estimateTokenCount (hard_truncate jsonString))
              MAX_RESPONSE_TOKENS) as [G|G]; [|exact G].
  apply within_budget_length in G.
  unfold hard_truncate in G.
  rewrite length_append, length_substring_0 in G.
  unfold MAX_RESPONSE_TOKENS in G.
  change (String.length TRUNCATION_MESSAGE) with 106 in G. lia.
Qed.

(** *** The serializer *)

Lemma stringify_in_none indent v : stringify_in indent v = None <-> v = JUndefined.
Proof. destruct v; simpl; split; congruence. Qed.

Lemma length_quote s : String.length s + 2 <= String.length (quote s).
Proof.
  unfold quote. rewrite !length_append. simpl.
  assert (H : String.length s <= String.length (quote_units s)).
  { induction s as [|c s IH]; simpl; [lia|].
    rewrite length_append.
    assert (1 <= String.length (quote_unit c)).
    { unfold quote_unit.
      repeat match goal with
             | |- context [if ?b then _ else _] => destruct b
             end; simpl; lia. }
    lia. }
  lia.
Qed.

Lemma uint_last_digit u :
  u <> Decimal.Nil ->
  exists d, ends_in (NilEmpty.string_of_uint u) (String d "") /\ d <> "]"%char.
Proof.
  induction u as [|u IH|u IH|u IH|u IH|u IH|u IH|u IH|u IH|u IH|u IH];
    intros N; [congruence|..];
    (destruct (Decimal.uint_eq_dec u Decimal.Nil) as [->|Hu];
     [ eexists; split; [apply ends_in_refl | discriminate]
     | destruct (IH Hu) as (d & E & Hd); exists d; split; [|exact Hd];
       simpl;
       match goal with
       | |- ends_in (String ?c ?r) _ => apply (ends_in_app (String c "") r), E
       end ]).
Qed.

Lemma number_last_digit n :
  exists d, ends_in (number_to_string n) (String d "") /\ d <> "]"%char.
Proof.
  unfold number_to_string, NilZero.string_of_int, NilZero.string_of_uint.
  destruct (Z.to_int n) as [u|u].
  - destruct (Decimal.uint_eq_dec u Decimal.Nil) as [->|Hu].
    + exists "0"%char. split; [apply ends_in_refl | discriminate].
    + destruct (uint_last_digit u Hu) as (d & E & Hd).
      exists d. split; [|exact Hd]. destruct u; [congruence|..]; exact E.
  - destruct (Decimal.uint_eq_dec u Decimal.Nil) as [->|Hu].
    + exists "0"%char. split; [now exists "-" | discriminate].
    + destruct (uint_last_digit u Hu) as (d & E & Hd).
      exists d. split; [|exact Hd].
      destruct u; [congruence|..]; apply (ends_in_app "-"), E.
Qed.

(** The text of a value never ends with the truncation marker. *)
Lemma stringify_no_marker v s :
  stringify v = Some s -> endsWith s TRUNCATION_MESSAGE = false.
Proof.
  unfold stringify. destruct v as [| |b|n|t|items|props]; simpl; intros H;
    inversion H; subst; clear H.
  - reflexivity.
  - destruct b; reflexivity.
  - destruct (number_last_digit n) as (d & E & Hd).
    eapply no_marker_last; eassumption.
  - apply (no_marker_last _ "034"%char); [|discriminate].
    unfold quote. ends_in_suffix.
  - match goal with
    | |- context [match ?l with [] => _ | _ :: _ => _ end] => destruct l
    end; [reflexivity|].
    apply (no_marker_last_but_one _ "010"%char "]"%char); [|discriminate].
    ends_in_suffix.
  - match goal with
    | |- context [match ?l with [] => _ | _ :: _ => _ end] => destruct l
    end; [reflexivity|].
    apply (no_marker_last _ "}"%char); [|discriminate].
    ends_in_suffix.
Qed.


(** *** [truncateResponse] *)

Lemma truncateResponse_pass v jsonString :
  stringify v = Some jsonString ->
  estimateTokenCount jsonString <= MAX_RESPONSE_TOKENS ->
  truncateResponse v = Some jsonString.
Proof.
  intros S L. unfold truncateResponse. rewrite S.
  apply Nat.leb_le in L. now rewrite L.
Qed.

Lemma truncateResponse_string t :
  truncateResponse (JStr t) =
  Some (if estimateTokenCount (quote t) <=? MAX_RESPONSE_TOKENS
        then quote t else hard_truncate (quote t)).
Proof.
  unfold truncateResponse.
  change (stringify (JStr t)) with (Some (quote t)). cbv beta iota zeta.
  destruct (estimateTokenCount (quote t) <=? MAX_RESPONSE_TOKENS); reflexivity.
Qed.

(** C2 (as amended).  [truncateResponse] throws for [undefined] only.  The
    string it returns is within the budget of 8000 estimated tokens or ends
    with the truncation marker, never neither.  A value whose text is
    within budget is returned as that text, which does not end with the
    marker; otherwise the result ends with the marker, and it is either the
    projected text, itself within budget, followed by the marker, or the
    text cut at 32000 characters followed by the marker, which exceeds the
    budget.  (The projected result may thus be within budget and end with
    the marker at once.) *)
Theorem C2_budget_or_marker obj :
  (truncateResponse obj = None <-> obj = JUndefined) /\
  forall s, truncateResponse obj = Some s ->
    (estimateTokenCount s <= MAX_RESPONSE_TOKENS \/
     endsWith s TRUNCATION_MESSAGE = true) /\
    exists jsonString,
      stringify obj = Some jsonString /\
      ((estimateTokenCount jsonString <= MAX_RESPONSE_TOKENS /\
        s = jsonString /\ endsWith s TRUNCATION_MESSAGE = false)
       \/
       (MAX_RESPONSE_TOKENS < estimateTokenCount jsonString /\
        endsWith s TRUNCATION_MESSAGE = true /\
        ((exists truncatedString,
            s = (truncatedString ++ TRUNCATION_MESSAGE)%string /\
            estimateTokenCount truncatedString <= MAX_RESPONSE_TOKENS)
         \/
         (s = hard_truncate jsonString /\
          MAX_RESPONSE_TOKENS < estimateTokenCount s)))).
Proof.
  split.
  - unfold truncateResponse.
    destruct (stringify obj) as [jsonString|] eqn:S.
    + split.
      * intros H. exfalso. revert H.
        destruct (estimateTokenCount jsonString <=? MAX_RESPONSE_TOKENS);
          [discriminate|].
        destruct (if truthy (get_prop obj "data") then get_prop obj "data"
                  else JUndefined); try discriminate.
        match goal with
        | |- context [stringify ?x] => destruct (stringify x)
        end; [|discriminate].
        match goal with
        | |- context [?a <=? ?b] => destruct (a <=? b)
        end; discriminate.
      * intros ->. discriminate.
    + apply stringify_in_none in S. tauto.
  - intros s H. unfold truncateResponse in H.
    destruct (stringify obj) as [jsonString|] eqn:S; [|discriminate].
    destruct (estimateTokenCount jsonString <=? MAX_RESPONSE_TOKENS) eqn:L.
    + inversion H; subst s; clear H. apply Nat.leb_le in L.
      split; [now left|]. exists jsonString. split; [reflexivity|].
      left. repeat split; auto. eapply stringify_no_marker; eassumption.
    + apply Nat.leb_gt in L.
      assert (Hard : Some (hard_truncate jsonString) = Some s ->
                (estimateTokenCount s <= MAX_RESPONSE_TOKENS \/
                 endsWith s TRUNCATION_MESSAGE = true) /\
                exists j, Some jsonString = Some j /\
                  ((estimateTokenCount j <= MAX_RESPONSE_TOKENS /\
                    s = j /\ endsWith s TRUNCATION_MESSAGE = false)
                   \/
                   (MAX_RESPONSE_TOKENS < estimateTokenCount j /\
                    endsWith s TRUNCATION_MESSAGE = true /\
                    ((exists t, s = (t ++ TRUNCATION_MESSAGE)%string /\
                        estimateTokenCount t <= MAX_RESPONSE_TOKENS)
                     \/
                     (s = hard_truncate j /\
                      MAX_RESPONSE_TOKENS < estimateTokenCount s))))).
      { intros E. inversion E; subst s; clear E.
        assert (M : endsWith (hard_truncate jsonString) TRUNCATION_MESSAGE = true)
          by apply endsWith_append.
        split; [now right|]. exists jsonString. split; [reflexivity|].
        right. repeat split; auto. right. split; [reflexivity|].
        now apply hard_truncate_over_budget. }
      destruct (if truthy (get_prop obj "data") then get_prop obj "data"
                else JUndefined); try (exact (Hard H)).
      match type of H with
      | context [stringify ?x] => destruct (stringify x) as [truncatedString|]
      end; [|exact (Hard H)].
      destruct (estimateTokenCount truncatedString <=? MAX_RESPONSE_TOKENS) eqn:L2;
        [|exact (Hard H)].
      inversion H; subst s; clear H. apply Nat.leb_le in L2.
      assert (M : endsWith (truncatedString ++ TRUNCATION_MESSAGE) TRUNCATION_MESSAGE
                  = true) by apply endsWith_append.
      split; [now right|]. exists jsonString. split; [reflexivity|].
      right. repeat split; auto. left. exists truncatedString. auto.
Qed.

Lemma C2_budget_or_marker_witness :
  (estimateTokenCount (dquote ++ "ok" ++ dquote) <= MAX_RESPONSE_TOKENS \/
   endsWith (dquote ++ "ok" ++ dquote) TRUNCATION_MESSAGE = true) /\
  exists jsonString,
    stringify (JStr "ok") = Some jsonString /\
    ((estimateTokenCount jsonString <= MAX_RESPONSE_TOKENS /\
      (dquote ++ "ok" ++ dquote)%string = jsonString /\
      endsWith (dquote ++ "ok" ++ dquote) TRUNCATION_MESSAGE = false)
     \/
     (MAX_RESPONSE_TOKENS < estimateTokenCount jsonString /\
      endsWith (dquote ++ "ok" ++ dquote) TRUNCATION_MESSAGE = true /\
      ((exists truncatedString,
          (dquote ++ "ok" ++ dquote)%string
          = (truncatedString ++ TRUNCATION_MESSAGE)%string /\
          estimateTokenCount truncatedString <= MAX_RESPONSE_TOKENS)
       \/
       ((dquote ++ "ok" ++ dquote)%string = hard_truncate jsonString /\
        MAX_RESPONSE_TOKENS < estimateTokenCount (dquote ++ "ok" ++ dquote))))).
Proof.
  apply (proj2 (C2_budget_or_marker (JStr "ok")) (dquote ++ "ok" ++ dquote)%string).
  reflexivity.
Defined.

(** C2 as stated fails: the result for a list of executions with one bulky
    record is the projected list followed by the marker; it ends with the
    marker and is within budget, both at once. *)
Lemma C2_counterexample :
  exists s,
    truncateResponse Samples.bulky_executions = Some s /\
    estimateTokenCount s <= MAX_RESPONSE_TOKENS /\
    endsWith s TRUNCATION_MESSAGE = true.
Proof.
  eexists. split; [apply BudgeterFacts.projection_of_bulky|].
  split; [apply Nat.leb_le; vm_compute; reflexivity | vm_compute; reflexivity].
Qed.

(** C7 (as amended).  A value whose text is within budget is returned as
    that text.  Shrinking the result once more does not return it again:
    the result is a string, whose text is its JSON string literal, so the
    second result is strictly longer than the first; it is that literal
    whenever the literal is within budget. *)
Theorem C7_shrink_twice v jsonString :
  stringify v = Some jsonString ->
  estimateTokenCount jsonString <= MAX_RESPONSE_TOKENS ->
  truncateResponse v = Some jsonString /\
  exists again,
    truncateResponse (JStr jsonString) = Some again /\
    String.length jsonString < String.length again /\
    again <> jsonString /\
    (estimateTokenCount (quote jsonString) <= MAX_RESPONSE_TOKENS ->
     again = quote jsonString).
Proof.
  intros S L. split; [now apply truncateResponse_pass|].
  rewrite truncateResponse_string. eexists. split; [reflexivity|].
  pose proof (length_quote jsonString) as Q.
  assert (G : String.length jsonString <
              String.length (if estimateTokenCount (quote jsonString)
                                  <=? MAX_RESPONSE_TOKENS
                             then quote jsonString
                             else hard_truncate (quote jsonString))).
  { destruct (estimateTokenCount (quote jsonString) <=? MAX_RESPONSE_TOKENS) eqn:E.
    - lia.
    - apply Nat.leb_gt in E. apply hard_truncate_over_budget in E.
      apply within_budget_length in L.
      destruct (Nat.le_gt_cases (String.length (hard_truncate (quote jsonString)))
                  (28 * 1000)) as [G|G]; [|lia].
      apply within_budget_length in G. lia. }
  split; [exact G|]. split.
  - intros E. rewrite E in G. lia.
  - intros E. apply Nat.leb_le in E. now rewrite E.
Qed.

Lemma C7_shrink_twice_witness :
  truncateResponse (JNum 1) = Some "1" /\
  exists again,
    truncateResponse (JStr "1") = Some again /\
    String.length "1" < String.length again /\
    again <> "1" /\
    (estimateTokenCount (quote "1") <= MAX_RESPONSE_TOKENS -> again = quote "1").
Proof.
  apply (C7_shrink_twice (JNum 1) "1").
  - reflexivity.
  - apply Nat.leb_le. reflexivity.
Defined.

(** C7 as stated fails: the number 1 is within budget and shrinks to the
    text [1]; that text shrinks to the three characters of its string
    literal. *)
Lemma C7_counterexample :
  stringify (JNum 1) = Some "1" /\
  estimateTokenCount "1" <= MAX_RESPONSE_TOKENS /\
  truncateResponse (JNum 1) = Some "1" /\
  truncateResponse (JStr "1") = Some (dquote ++ "1" ++ dquote)%string /\
  truncateResponse (JStr "1") <> truncateResponse (JNum 1).
Proof.
  repeat split; try reflexivity.
  - apply Nat.leb_le. reflexivity.
  - discriminate.
Qed.

End BudgeterFacts.



(* ================================================================== *)
(** * Further properties of the code                                   *)
(* ================================================================== *)

Module DistanceFacts.
Import Similarity SimilarityFacts.

(** *** [lev] is a metric on strings *)

Lemma edits_trans s t u n m : edits s t n -> edits t u m -> edits s u (n + m).
Proof.
  induction 1 as [s|s t' t n Hst _ IH]; intros H; simpl.
  - exact H.
  - eapply edits_step; [eassumption | auto].
Qed.

Lemma lev_triangle s t u : lev s u <= lev s t + lev t u.
Proof. apply lev_le_edits. eapply edits_trans; apply edits_lev. Qed.

Lemma lev_zero s t : lev s t = 0 -> s = t.
Proof.
  intros H. pose proof (edits_lev s t) as E. rewrite H in E.
  now inversion E.
Qed.

Lemma one_edit_length s t :
  one_edit s t ->
  List.length t <= List.length s + 1 /\ List.length s <= List.length t + 1.
Proof. induction 1; simpl; lia. Qed.

Lemma edits_length s t n :
  edits s t n ->
  List.length t <= List.length s + n /\ List.length s <= List.length t + n.
Proof.
  induction 1 as [s|s t u n Hst _ IH]; [lia|].
  apply one_edit_length in Hst. lia.
Qed.

Lemma lev_lower s t :
  List.length t <= List.length s + lev s t /\
  List.length s <= List.length t + lev s t.
Proof. apply edits_length, edits_lev. Qed.

Lemma lev_upper s : forall t, lev s t <= Nat.max (List.length s) (List.length t).
Proof.
  induction s as [|a s IH]; intros t.
  - simpl. lia.
  - destruct t as [|b t].
    + rewrite lev_nil_r. simpl. lia.
    + rewrite lev_cons_cons. specialize (IH t). simpl.
      destruct (Ascii.eqb a b); lia.
Qed.

Lemma list_ascii_injective a b :
  list_ascii_of_string a = list_ascii_of_string b -> a = b.
Proof.
  intros H.
  rewrite <- (string_of_list_ascii_of_string a), <- (string_of_list_ascii_of_string b).
  now rewrite H.
Qed.

(** X1.  [levenshtein_distance] is a metric: it always returns a number,
    the number is the same in both directions, it is zero exactly for
    equal strings, and it obeys the triangle inequality. *)
Theorem X1_levenshtein_distance_metric a b c :
  exists x y z,
    levenshtein_distance a b = Some x /\
    levenshtein_distance b c = Some y /\
    levenshtein_distance a c = Some z /\
    levenshtein_distance b a = Some x /\
    z <= x + y /\
    (x = 0 <-> a = b).
Proof.
  exists (lev (list_ascii_of_string a) (list_ascii_of_string b)),
         (lev (list_ascii_of_string b) (list_ascii_of_string c)),
         (lev (list_ascii_of_string a) (list_ascii_of_string c)).
  rewrite !levenshtein_distance_lev.
  repeat split.
  - now rewrite lev_sym.
  - apply lev_triangle.
  - intros H. now apply list_ascii_injective, lev_zero.
  - intros ->. apply lev_refl.
Qed.

(** X2.  The distance lies between the difference of the two lengths and
    the greater of them. *)
Theorem X2_levenshtein_distance_bounds a b :
  exists d,
    levenshtein_distance a b = Some d /\
    String.length a - String.length b <= d /\
    String.length b - String.length a <= d /\
    d <= Nat.max (String.length a) (String.length b).
Proof.
  exists (lev (list_ascii_of_string a) (list_ascii_of_string b)).
  rewrite levenshtein_distance_lev.
  pose proof (lev_lower (list_ascii_of_string a) (list_ascii_of_string b)) as L.
  pose proof (lev_upper (list_ascii_of_string a) (list_ascii_of_string b)) as U.
  rewrite !length_list_ascii in L, U.
  repeat split; lia.
Qed.

End DistanceFacts.

Module ScoreFacts.
Import Similarity SimilarityFacts DistanceFacts.

(** *** The score as a fraction *)

Lemma of_nat_pos m : 0 < m -> Z.of_nat m = Zpos (Pos.of_nat m).
Proof. intros H. destruct m; [lia|]. simpl. now rewrite Pos.of_nat_succ. Qed.

Lemma score_as_fraction d m :
  0 < m ->
  (1 - inject_Z (Z.of_nat d) / inject_Z (Z.of_nat m) ==
   (Z.of_nat m - Z.of_nat d) # Pos.of_nat m)%Q.
Proof.
  intros H. rewrite (of_nat_pos m H), <- Qmake_Qdiv.
  unfold Qeq, Qminus, Qplus, Qopp. cbn [Qnum Qden].
  rewrite ?Pos.mul_1_l. ring.
Qed.

Lemma score_bounds d m :
  0 < m -> d <= m ->
  (0 <= 1 - inject_Z (Z.of_nat d) / inject_Z (Z.of_nat m) <= 1)%Q.
Proof.
  intros H L. rewrite (score_as_fraction d m H).
  unfold Qle. cbn [Qnum Qden]. rewrite <- (of_nat_pos m H). split; lia.
Qed.

Lemma score_one_iff d m :
  0 < m ->
  (1 - inject_Z (Z.of_nat d) / inject_Z (Z.of_nat m) == 1)%Q <-> d = 0.
Proof.
  intros H. rewrite (score_as_fraction d m H).
  unfold Qeq. cbn [Qnum Qden]. rewrite <- (of_nat_pos m H). split; intros; lia.
Qed.

Lemma score_above d m :
  0 < m -> 5 * d < 2 * m ->
  (6 # 10 < 1 - inject_Z (Z.of_nat d) / inject_Z (Z.of_nat m))%Q.
Proof.
  intros H L. rewrite (score_as_fraction d m H).
  unfold Qlt. cbn [Qnum Qden]. rewrite <- (of_nat_pos m H). lia.
Qed.

Lemma score_mono d d' m :
  0 < m -> d <= d' ->
  (1 - inject_Z (Z.of_nat d') / inject_Z (Z.of_nat m)
   <= 1 - inject_Z (Z.of_nat d) / inject_Z (Z.of_nat m))%Q.
Proof.
  intros H L. rewrite !(score_as_fraction _ m H).
  unfold Qle. cbn [Qnum Qden]. nia.
Qed.

(** *** Lower-casing *)

Lemma lower_unit_idempotent c : lower_unit (lower_unit c) = lower_unit c.
Proof.
  destruct c as [[] [] [] [] [] [] [] []]; reflexivity.
Qed.

Lemma toLowerCase_idempotent s : toLowerCase (toLowerCase s) = toLowerCase s.
Proof.
  induction s as [|c s IH]; simpl; [reflexivity|].
  now rewrite lower_unit_idempotent, IH.
Qed.

Lemma max_length_zero a b :
  Nat.max (String.length a) (String.length b) = 0 <-> a = "" /\ b = "".
Proof.
  destruct a, b; simpl; split; try lia; try (intros [? ?]; discriminate); auto.
Qed.

Lemma score_range_and_one a b s :
  calculate_similarity a b = Some s ->
  (0 <= s <= 1)%Q /\ ((s == 1)%Q <-> toLowerCase a = toLowerCase b).
Proof.
  rewrite calculate_similarity_lev.
  destruct (Nat.max (String.length a) (String.length b) =? 0) eqn:E;
    [discriminate|].
  apply Nat.eqb_neq in E. intros H. inversion H; subst s; clear H.
  pose proof (lev_upper (list_ascii_of_string (toLowerCase a))
                (list_ascii_of_string (toLowerCase b))) as U.
  rewrite !length_list_ascii, !length_toLowerCase in U.
  split; [apply score_bounds; lia|].
  rewrite score_one_iff by lia. split.
  - intros Z. now apply list_ascii_injective, lev_zero.
  - intros ->. apply lev_refl.
Qed.

(** X3.  The similarity score does not depend on the order of its two
    arguments nor on their letter case; it is not a number only for two
    empty strings; otherwise it lies between 0 and 1, and it is 1 exactly
    when the two strings are equal up to letter case. *)
Theorem X3_similarity_score a b :
  calculate_similarity a b = calculate_similarity b a /\
  calculate_similarity (toLowerCase a) (toLowerCase b) = calculate_similarity a b /\
  (calculate_similarity a b = None <-> a = "" /\ b = "") /\
  forall s, calculate_similarity a b = Some s ->
    (0 <= s <= 1)%Q /\ ((s == 1)%Q <-> toLowerCase a = toLowerCase b).
Proof.
  split; [|split; [|split]].
  - rewrite !calculate_similarity_lev.
    now rewrite (lev_sym (list_ascii_of_string (toLowerCase a))), Nat.max_comm.
  - rewrite !calculate_similarity_lev.
    now rewrite !toLowerCase_idempotent, !length_toLowerCase.
  - rewrite calculate_similarity_lev, <- max_length_zero.
    destruct (Nat.max (String.length a) (String.length b) =? 0) eqn:E.
    + apply Nat.eqb_eq in E. tauto.
    + apply Nat.eqb_neq in E. split; [discriminate | tauto].
  - intros s. apply score_range_and_one.
Qed.

Lemma X3_similarity_score_witness :
  (0 <= 1 - inject_Z (Z.of_nat 1) / inject_Z (Z.of_nat 4) <= 1)%Q /\
  ((1 - inject_Z (Z.of_nat 1) / inject_Z (Z.of_nat 4) == 1)%Q <->
   toLowerCase "ABCD" = toLowerCase "abce").
Proof.
  apply (proj2 (proj2 (proj2 (X3_similarity_score "ABCD" "abce")))).
  reflexivity.
Defined.

(** *** Suggestions *)

Lemma fold_left_same {A B : Type} (f g : A -> B -> A) (l : list B) :
  (forall a b, f a b = g a b) -> forall a, fold_left f l a = fold_left g l a.
Proof.
  intros H. induction l as [|b l IH]; intros a; simpl; [reflexivity|].
  now rewrite H, IH.
Qed.

Lemma find_similar_lower_case q keys :
  find_similar (toLowerCase q) keys = find_similar q keys.
Proof.
  unfold find_similar. f_equal. apply fold_left_same.
  intros st c. unfold consider.
  assert (E : calculate_similarity (toLowerCase q) c = calculate_similarity q c).
  { rewrite !calculate_similarity_lev.
    now rewrite toLowerCase_idempotent, length_toLowerCase. }
  now rewrite E.
Qed.

(** A key within [n] edits of the query, with [5 n < 2 max], scores above
    the threshold, so some key at least as good is suggested. *)
Lemma near_key_is_suggested q keys k n :
  In k keys ->
  edits (list_ascii_of_string (toLowerCase q)) (list_ascii_of_string (toLowerCase k)) n ->
  5 * n < 2 * Nat.max (String.length q) (String.length k) ->
  exists c s,
    find_similar q keys = Some c /\ In c keys /\
    calculate_similarity q c = Some s /\
    (6 # 10 < s)%Q /\
    (1 - inject_Z (Z.of_nat n)
         / inject_Z (Z.of_nat (Nat.max (String.length q) (String.length k))) <= s)%Q.
Proof.
  intros Hin E L.
  set (m := Nat.max (String.length q) (String.length k)) in *.
  assert (M : 0 < m) by lia.
  apply lev_le_edits in E.
  set (d := lev (list_ascii_of_string (toLowerCase q))
                (list_ascii_of_string (toLowerCase k))) in *.
  assert (Sk : calculate_similarity q k
               = Some (1 - inject_Z (Z.of_nat d) / inject_Z (Z.of_nat m))%Q).
  { rewrite calculate_similarity_lev. fold m d.
    destruct (m =? 0) eqn:Z; [apply Nat.eqb_eq in Z; lia | reflexivity]. }
  assert (A : (6 # 10 < 1 - inject_Z (Z.of_nat d) / inject_Z (Z.of_nat m))%Q)
    by (apply score_above; lia).
  pose proof (score_mono d n m M E) as Mono.
  destruct (find_similar q keys) as [c|] eqn:F.
  - apply find_similar_some in F as (before & after & s & -> & Hs & Ht & Hb & Ha).
    exists c, s. split; [reflexivity|]. split; [apply in_elt|].
    split; [exact Hs|]. split; [exact Ht|].
    apply in_app_or in Hin as [Hin|[<-|Hin]].
    + specialize (Hb _ _ Hin Sk). lra.
    + assert (s = (1 - inject_Z (Z.of_nat d) / inject_Z (Z.of_nat m))%Q) by congruence.
      subst s. exact Mono.
    + specialize (Ha _ _ Hin Sk). lra.
  - exfalso. pose proof (proj1 (find_similar_none q keys) F k _ Hin Sk) as H.
    unfold threshold in H. lra.
Qed.

(** X4.  A key that a few single-character edits separate from the query
    (ignoring letter case), fewer than 40 percent of the greater of the two
    lengths, guarantees a suggestion: some key is suggested, and it scores
    at least as well as that near key.  In particular one wrong, missing or
    extra character in a name of three or more characters, or two in one of
    six or more (a transposition), always yields a suggestion. *)
Theorem X4_near_key_guarantees_suggestion q keys k n :
  In k keys ->
  edits (list_ascii_of_string (toLowerCase q)) (list_ascii_of_string (toLowerCase k)) n ->
  5 * n < 2 * Nat.max (String.length q) (String.length k) ->
  exists c s,
    find_similar q keys = Some c /\ In c keys /\
    calculate_similarity q c = Some s /\
    (6 # 10 < s)%Q /\
    (1 - inject_Z (Z.of_nat n)
         / inject_Z (Z.of_nat (Nat.max (String.length q) (String.length k))) <= s)%Q.
Proof. apply near_key_is_suggested. Qed.

Lemma X4_near_key_guarantees_suggestion_witness :
  exists c s,
    find_similar "set" ["n8n-nodes-base.start"; "sat"] = Some c /\
    In c ["n8n-nodes-base.start"; "sat"] /\
    calculate_similarity "set" c = Some s /\
    (6 # 10 < s)%Q /\
    (1 - inject_Z (Z.of_nat 1)
         / inject_Z (Z.of_nat (Nat.max (String.length "set") (String.length "sat"))) <= s)%Q.
Proof.
  apply (X4_near_key_guarantees_suggestion "set" ["n8n-nodes-base.start"; "sat"] "sat" 1).
  - right. left. reflexivity.
  - eapply edits_step; [|apply edits_done].
    apply edit_later, (edit_substitute "e"%char "a"%char).
  - simpl. lia.
Defined.

(** X5.  Suggestions ignore letter case: lower-casing the query does not
    change the suggestion, and a query that equals a key of the registry up
    to letter case is answered with a key equal to it up to letter case. *)
Theorem X5_suggestion_ignores_case v q :
  Registry.find_similar_node_type v (toLowerCase q) = Registry.find_similar_node_type v q /\
  forall k,
    q <> "" ->
    In k (Registry.map_keys (Registry.node_registry v)) ->
    toLowerCase k = toLowerCase q ->
    exists c,
      Registry.find_similar_node_type v q = Some c /\
      In c (Registry.map_keys (Registry.node_registry v)) /\
      toLowerCase c = toLowerCase q.
Proof.
  split; [apply find_similar_lower_case|].
  intros k Hq Hin Hk. unfold Registry.find_similar_node_type.
  assert (Q : 0 < String.length q) by (destruct q; [congruence | simpl; lia]).
  assert (M : 0 < Nat.max (String.length q) (String.length k)) by lia.
  destruct (near_key_is_suggested q _ k 0 Hin) as (c & s & F & Hc & Hs & _ & Hone).
  - rewrite Hk. apply edits_done.
  - lia.
  - exists c. split; [exact F|]. split; [exact Hc|].
    destruct (score_range_and_one q c s Hs) as [[_ Le] Iff].
    symmetry. apply Iff.
    pose proof (proj2 (score_one_iff 0 _ M) eq_refl) as One.
    apply Qle_antisym; [exact Le|]. rewrite <- One. exact Hone.
Qed.

Lemma X5_suggestion_ignores_case_witness :
  exists c,
    Registry.find_similar_node_type Samples.loaded_validator "N8N-Nodes-Base.HTTPRequest"
    = Some c /\
    In c (Registry.map_keys (Registry.node_registry Samples.loaded_validator)) /\
    toLowerCase c = toLowerCase "N8N-Nodes-Base.HTTPRequest".
Proof.
  apply (proj2 (X5_suggestion_ignores_case Samples.loaded_validator
                  "N8N-Nodes-Base.HTTPRequest") "n8n-nodes-base.httpRequest").
  - discriminate.
  - left. reflexivity.
  - reflexivity.
Defined.

End ScoreFacts.

Module ShapeFacts.
Import Registry Shape RegistryFacts.

(** *** The map keeps its keys apart *)

Lemma map_has_keys m k : map_has m k = true <-> In k (map_keys m).
Proof.
  unfold map_has. induction m as [|[k' v'] m IH]; simpl.
  - split; [discriminate | tauto].
  - destruct (String.eqb k' k) eqn:E.
    + apply String.eqb_eq in E. tauto.
    + apply String.eqb_neq in E. rewrite IH. split; [tauto|].
      intros [H|H]; [congruence | exact H].
Qed.

Lemma map_set_keys m k v :
  map_keys (map_set m k v) =
  if map_has m k then map_keys m else map_keys m ++ [k].
Proof.
  unfold map_has. induction m as [|[k' v'] m IH]; simpl; [reflexivity|].
  destruct (String.eqb k' k) eqn:E; simpl.
  - apply String.eqb_eq in E. now subst.
  - rewrite IH. now destruct (map_get m k).
Qed.

Lemma map_set_in m k v k' v' :
  In (k', v') (map_set m k v) -> (k' = k /\ v' = v) \/ In (k', v') m.
Proof.
  induction m as [|[k0 v0] m IH]; simpl.
  - intros [H|[]]. inversion H. auto.
  - destruct (String.eqb k0 k); simpl.
    + intros [H|H]; [inversion H; auto | auto].
    + intros [H|H]; [auto | destruct (IH H); auto].
Qed.

Lemma well_keyed_nil : well_keyed [].
Proof. split; [constructor | intros k info []]. Qed.

Lemma well_keyed_set m k v :
  well_keyed m -> k <> "" -> name v = k -> display_name v <> "" ->
  well_keyed (map_set m k v).
Proof.
  intros [N E] Hk Hn Hd. split.
  - rewrite map_set_keys. destruct (map_has m k) eqn:H; [exact N|].
    apply NoDup_app; [exact N | repeat constructor; intros [] |].
    intros x Hx [<-|[]]. apply map_has_keys in Hx. congruence.
  - intros k' v' Hin. apply map_set_in in Hin as [[-> ->]|Hin]; auto.
Qed.

Lemma or_else_not_empty x n : n <> "" -> or_else x n <> "".
Proof.
  intros H. unfold or_else. destruct x as [[|c d]|]; simpl; auto. discriminate.
Qed.

Lemma well_keyed_process_node reg entry reg' :
  well_keyed reg -> process_node reg entry = inr reg' -> well_keyed reg'.
Proof.
  intros W. unfold process_node, node_info.
  destruct (Remote.name (snd entry)) as [n|];
    [|intros H; inversion H; subst; exact W].
  destruct (truthy (Some n)) eqn:T; [|intros H; inversion H; subst; exact W].
  apply truthy_some in T.
  destruct (join_group (Remote.group (snd entry))) as [e|joined]; [discriminate|].
  intros H. inversion H.
  apply well_keyed_set; simpl; auto. now apply or_else_not_empty.
Qed.

Lemma well_keyed_process_entries entries : forall reg,
  well_keyed reg -> well_keyed (fst (process_entries entries reg)).
Proof.
  induction entries as [|[key [node|]] entries IH]; intros reg W; simpl; auto.
  destruct (process_node reg (key, node)) as [e|reg'] eqn:E; [exact W|].
  apply IH, (well_keyed_process_node reg (key, node) reg' W E).
Qed.

Lemma well_keyed_fallback : well_keyed (add_fallback_nodes []).
Proof.
  unfold add_fallback_nodes.
  assert (G : forall nodes reg,
             Forall (fun node => fst node <> "" /\ snd node <> "") nodes ->
             well_keyed reg ->
             well_keyed (fold_left (fun reg node =>
                           map_set reg (fst node) (fallback_info node)) nodes reg)).
  { induction nodes as [|node nodes IH]; intros reg F W; simpl; [exact W|].
    inversion F as [|? ? [H1 H2] F']; subst.
    apply IH; [exact F'|]. apply well_keyed_set; auto. }
  apply G; [|apply well_keyed_nil].
  repeat constructor; discriminate.
Qed.

Lemma well_keyed_catch now v :
  well_keyed (node_registry v) ->
  well_keyed (node_registry (fetch_node_registry_catch now v)).
Proof.
  intros W. destruct (node_registry v) as [|e m] eqn:E.
  - rewrite (catch_without_data now v E). apply well_keyed_fallback.
  - rewrite catch_with_data by congruence. now rewrite E.
Qed.

(** A refresh leaves a map, whatever the remote end answers. *)
Lemma well_keyed_fetch o now v :
  well_keyed (node_registry v) ->
  well_keyed (node_registry (snd (fetch_node_registry o now v))).
Proof.
  intros W. destruct (failed o) eqn:F.
  - rewrite (fetch_failed o now v F). now apply well_keyed_catch.
  - destruct o as [| | |data]; try discriminate.
    rewrite fetch_json_registry.
    assert (P : well_keyed (fst (process_payload data []))).
    { destruct data as [|entries]; simpl; [apply well_keyed_nil|].
      apply well_keyed_process_entries, well_keyed_nil. }
    destruct (process_payload data []) as [reg [e|]]; simpl in P; [|exact P].
    now apply (well_keyed_catch now (set_registry (set_registry v []) reg)).
Qed.


(** *** The invariant along every run *)

Lemma enter_data now next v :
  node_registry (fst (enter now next v)) = node_registry v /\
  last_fetch_time (fst (enter now next v)) = last_fetch_time v.
Proof.
  unfold enter.
  destruct (is_fetching v), (fetch_promise v), (cache_valid now v); simpl; auto.
Qed.

Lemma step_well_keyed w ev w' log :
  Interleaving.step w ev = Some (w', log) ->
  well_keyed (node_registry (Interleaving.validator w)) ->
  well_keyed (node_registry (Interleaving.validator w')).
Proof.
  intros H W. destruct ev as [now|p o now|p]; simpl in H.
  - unfold Interleaving.on_call in H.
    pose proof (enter_data now (Interleaving.issued w) (Interleaving.validator w)) as [E _].
    destruct (enter now (Interleaving.issued w) (Interleaving.validator w)) as [v r].
    simpl in E. destruct r; inversion H; subst; simpl; now rewrite E.
  - unfold Interleaving.on_answer in H.
    destruct (Interleaving.phase_of (Interleaving.activations w) p) as [[|r]|];
      try discriminate.
    pose proof (well_keyed_fetch o now (Interleaving.validator w) W) as F.
    destruct (fetch_node_registry o now (Interleaving.validator w)) as [r v].
    simpl in H, F. inversion H; subst. exact F.
  - unfold Interleaving.on_resume in H.
    destruct (Interleaving.phase_of (Interleaving.activations w) p) as [[|r]|];
      try discriminate.
    simpl in H. inversion H; subst. exact W.
Qed.

Lemma run_well_keyed evs : forall w w' log,
  Interleaving.run w evs = Some (w', log) ->
  well_keyed (node_registry (Interleaving.validator w)) ->
  well_keyed (node_registry (Interleaving.validator w')).
Proof.
  induction evs as [|ev evs IH]; intros w w' log H W; simpl in H.
  - inversion H; subst. exact W.
  - destruct (Interleaving.step w ev) as [[w1 log1]|] eqn:E1; [|discriminate].
    destruct (Interleaving.run w1 evs) as [[w2 log2]|] eqn:E2; [|discriminate].
    inversion H; subst. eapply IH; [exact E2|].
    eapply step_well_keyed; eassumption.
Qed.

(** X6.  Whatever the callers do and whatever the remote end answers, the
    registry stays a proper map: its keys are pairwise distinct and not
    empty, and every entry is stored under its own [name] and has a
    non-empty [display_name]. *)
Theorem X6_registry_stays_a_map evs w log :
  Interleaving.run Interleaving.boot evs = Some (w, log) ->
  NoDup (map_keys (node_registry (Interleaving.validator w))) /\
  forall k info, In (k, info) (node_registry (Interleaving.validator w)) ->
    k <> "" /\ name info = k /\ display_name info <> "".
Proof.
  intros H. apply (run_well_keyed evs Interleaving.boot w log H).
  apply well_keyed_nil.
Qed.

Lemma X6_registry_stays_a_map_witness :
  NoDup (map_keys (node_registry (Interleaving.validator
           (Interleaving.world_after Interleaving.boot
              (Samples.earlier_refresh
               ++ Interleaving.Call 4000000 :: Samples.late_callers))))) /\
  forall k info,
    In (k, info) (node_registry (Interleaving.validator
           (Interleaving.world_after Interleaving.boot
              (Samples.earlier_refresh
               ++ Interleaving.Call 4000000 :: Samples.late_callers)))) ->
    k <> "" /\ name info = k /\ display_name info <> "".
Proof.
  apply (X6_registry_stays_a_map
           (Samples.earlier_refresh
            ++ Interleaving.Call 4000000 :: Samples.late_callers)
           _
           (Interleaving.log_after Interleaving.boot
              (Samples.earlier_refresh
               ++ Interleaving.Call 4000000 :: Samples.late_callers))).
  reflexivity.
Defined.

(** *** What only the answer of the remote end changes *)

Lemma step_keeps_data w ev w' log :
  is_answer ev = false ->
  Interleaving.step w ev = Some (w', log) ->
  node_registry (Interleaving.validator w') = node_registry (Interleaving.validator w) /\
  last_fetch_time (Interleaving.validator w') = last_fetch_time (Interleaving.validator w).
Proof.
  intros A H. destruct ev as [now|p o now|p]; simpl in H, A; [|discriminate|].
  - unfold Interleaving.on_call in H.
    pose proof (enter_data now (Interleaving.issued w) (Interleaving.validator w)) as E.
    destruct (enter now (Interleaving.issued w) (Interleaving.validator w)) as [v r].
    simpl in E. destruct r; inversion H; subst; exact E.
  - unfold Interleaving.on_resume in H.
    destruct (Interleaving.phase_of (Interleaving.activations w) p) as [[|r]|];
      try discriminate.
    simpl in H. inversion H; subst. simpl. auto.
Qed.

(** X7.  Callers and [finally] blocks never touch the data: along any
    sequence of events in which no remote answer is processed, the registry
    and [last_fetch_time] stay as they are.  In particular
    [last_fetch_time] is never set when a fetch is started, only when its
    answer has been dealt with. *)
Theorem X7_only_answers_change_the_data evs : forall w w' log,
  no_answer evs = true ->
  Interleaving.run w evs = Some (w', log) ->
  node_registry (Interleaving.validator w') = node_registry (Interleaving.validator w) /\
  last_fetch_time (Interleaving.validator w') = last_fetch_time (Interleaving.validator w).
Proof.
  induction evs as [|ev evs IH]; intros w w' log N H; simpl in H.
  - inversion H; subst. auto.
  - simpl in N. apply andb_true_iff in N as [N1 N2].
    apply negb_true_iff in N1.
    destruct (Interleaving.step w ev) as [[w1 log1]|] eqn:E1; [|discriminate].
    destruct (Interleaving.run w1 evs) as [[w2 log2]|] eqn:E2; [|discriminate].
    inversion H; subst.
    destruct (step_keeps_data w ev w1 log1 N1 E1) as [A B].
    destruct (IH w1 w' log2 N2 E2) as [C D].
    split; congruence.
Qed.

Lemma X7_only_answers_change_the_data_witness :
  node_registry (Interleaving.validator
     (Interleaving.world_after Interleaving.boot
        [Interleaving.Call 10; Interleaving.Call 11; Interleaving.Call 12]))
  = node_registry (Interleaving.validator Interleaving.boot) /\
  last_fetch_time (Interleaving.validator
     (Interleaving.world_after Interleaving.boot
        [Interleaving.Call 10; Interleaving.Call 11; Interleaving.Call 12]))
  = last_fetch_time (Interleaving.validator Interleaving.boot).
Proof.
  apply (X7_only_answers_change_the_data
           [Interleaving.Call 10; Interleaving.Call 11; Interleaving.Call 12]
           Interleaving.boot _
           (Interleaving.log_after Interleaving.boot
              [Interleaving.Call 10; Interleaving.Call 11; Interleaving.Call 12]));
    reflexivity.
Defined.

End ShapeFacts.


Module MethodFacts.
Import Registry Api Shape RegistryFacts ShapeFacts ApiFacts.

Lemma ensure_well_keyed env r :
  well_keyed (node_registry (this r)) ->
  well_keyed (node_registry (this (snd (ensure_node_registry_is_loaded env r)))).
Proof.
  intros W. unfold ensure_node_registry_is_loaded.
  pose proof (enter_data (now (env (calls r))) (fetches r) (this r)) as [E _].
  destruct (enter (now (env (calls r))) (fetches r) (this r)) as [v1 e].
  simpl in E. rewrite <- E in W.
  destruct e as [p| |p]; simpl; auto;
    pose proof (well_keyed_fetch (answer (env (calls r)))
                  (answered_at (env (calls r))) v1 W) as F;
    destruct (fetch_node_registry (answer (env (calls r)))
                (answered_at (env (calls r))) v1) as [[|err] v2]; exact F.
Qed.

Lemma names_are_keys m :
  well_keyed m -> map name (map_values m) = map_keys m.
Proof.
  intros [_ E]. unfold map_values, map_keys.
  induction m as [|[k info] m IH]; simpl; [reflexivity|].
  destruct (E k info (or_introl eq_refl)) as (_ & -> & _).
  simpl. f_equal. apply IH. intros k' info' H. apply E. now right.
Qed.

Lemma get_available_node_types_run env r :
  get_available_node_types env r =
  (inr (map_keys (node_registry (this (snd (ensure_node_registry_is_loaded env r))))),
   snd (ensure_node_registry_is_loaded env r)).
Proof.
  unfold get_available_node_types, then_.
  pose proof (ensure_never_throws env r) as H.
  destruct (ensure_node_registry_is_loaded env r) as [[e|[]] r']; simpl in *;
    [discriminate | reflexivity].
Qed.

Lemma get_available_nodes_run env r :
  get_available_nodes env r =
  (inr (map_values (node_registry (this (snd (ensure_node_registry_is_loaded env r))))),
   snd (ensure_node_registry_is_loaded env r)).
Proof.
  unfold get_available_nodes, then_.
  pose proof (ensure_never_throws env r) as H.
  destruct (ensure_node_registry_is_loaded env r) as [[e|[]] r']; simpl in *;
    [discriminate | reflexivity].
Qed.

(** X8.  [get_available_nodes] and [get_available_node_types] agree: on a
    registry that is a proper map both return, and the names of the nodes
    the first returns are the types the second returns, in the same order
    and without repetition. *)
Theorem X8_nodes_and_types_agree env r :
  well_keyed (node_registry (this r)) ->
  exists infos,
    fst (get_available_nodes env r) = inr infos /\
    fst (get_available_node_types env r) = inr (map name infos) /\
    NoDup (map name infos).
Proof.
  intros W. apply (ensure_well_keyed env) in W.
  rewrite get_available_nodes_run, get_available_node_types_run. simpl.
  eexists. split; [reflexivity|].
  rewrite (names_are_keys _ W). split; [reflexivity | apply W].
Qed.

Lemma X8_nodes_and_types_agree_witness :
  exists infos,
    fst (get_available_nodes Samples.remote_up (start new_validator)) = inr infos /\
    fst (get_available_node_types Samples.remote_up (start new_validator))
    = inr (map name infos) /\
    NoDup (map name infos).
Proof.
  apply (X8_nodes_and_types_agree Samples.remote_up (start new_validator)).
  split; [constructor | intros k info []].
Defined.

(** X9.  Every type that [get_available_node_types] lists validates: a
    call of [validate_node_type] on it that finds the cache still valid
    returns [{valid: true}] without a suggestion and without a fetch. *)
Theorem X9_listed_types_validate env r names r' t :
  is_fetching (this r) = false ->
  get_available_node_types env r = (inr names, r') ->
  In t names ->
  cache_valid (now (env (calls r'))) (this r') = true ->
  validate_node_type env t r' =
  (inr {| Validation.valid := true; Validation.suggestion := None |},
   {| this := this r'; calls := S (calls r'); fetches := fetches r' |}).
Proof.
  intros I G Hin C. rewrite get_available_node_types_run in G.
  inversion G; subst names r'; clear G.
  pose proof (ensure_counts env r) as (_ & _ & Hi). simpl in Hi. specialize (Hi I).
  rewrite validate_node_type_run, (ensure_valid env _ Hi C). simpl.
  apply map_has_keys in Hin. now rewrite Hin.
Qed.

Lemma X9_listed_types_validate_witness :
  validate_node_type Samples.remote_up "a.valid2"
    (snd (get_available_node_types Samples.remote_up (start new_validator))) =
  (inr {| Validation.valid := true; Validation.suggestion := None |},
   {| this := this (snd (get_available_node_types Samples.remote_up (start new_validator)));
      calls := 2; fetches := 1 |}).
Proof.
  apply (X9_listed_types_validate Samples.remote_up (start new_validator)
           ["a.valid"; "a.valid2"]
           (snd (get_available_node_types Samples.remote_up (start new_validator)))
           "a.valid2").
  - reflexivity.
  - reflexivity.
  - right. left. reflexivity.
  - reflexivity.
Defined.

(** X10.  A suggestion is always a type of the registry and never the
    rejected type itself: when [validate_node_type] answers
    [{valid: false, suggestion}], the suggestion is a key of the registry,
    it differs from the type asked about, and asking about the suggestion
    next, with the cache still valid, answers [{valid: true}]. *)
Theorem X10_suggestion_is_a_valid_type env t r c r' :
  is_fetching (this r) = false ->
  validate_node_type env t r =
    (inr {| Validation.valid := false; Validation.suggestion := Some c |}, r') ->
  c <> t /\
  map_has (node_registry (this r')) c = true /\
  map_has (node_registry (this r')) t = false /\
  (cache_valid (now (env (calls r'))) (this r') = true ->
   fst (validate_node_type env c r') =
   inr {| Validation.valid := true; Validation.suggestion := None |}).
Proof.
  intros I V. rewrite validate_node_type_run in V. simpl in V.
  inversion V as [[V1 V2]]; subst r'; clear V.
  set (r' := snd (ensure_node_registry_is_loaded env r)) in *.
  destruct (map_has (node_registry (this r')) t) eqn:Ht; [discriminate|].
  inversion V1 as [F]; clear V1.
  unfold find_similar_node_type in F.
  apply SimilarityFacts.find_similar_some in F as (before & after & s & K & _).
  assert (Hc : map_has (node_registry (this r')) c = true).
  { apply map_has_keys. rewrite K. apply in_elt. }
  repeat split; auto.
  - intros ->. congruence.
  - intros C.
    pose proof (ensure_counts env r) as (_ & _ & Hi). simpl in Hi. specialize (Hi I).
    fold r' in Hi.
    rewrite validate_node_type_run, (ensure_valid env r' Hi C). simpl.
    now rewrite Hc.
Qed.

Lemma X10_suggestion_is_a_valid_type_witness :
  "a.valid" <> "a.invalid" /\
  map_has (node_registry (this (snd (validate_node_type Samples.remote_up "a.invalid"
                                       (start new_validator))))) "a.valid" = true /\
  map_has (node_registry (this (snd (validate_node_type Samples.remote_up "a.invalid"
                                       (start new_validator))))) "a.invalid" = false /\
  (cache_valid
     (now (Samples.remote_up
             (calls (snd (validate_node_type Samples.remote_up "a.invalid"
                            (start new_validator))))))
     (this (snd (validate_node_type Samples.remote_up "a.invalid" (start new_validator))))
   = true ->
   fst (validate_node_type Samples.remote_up "a.valid"
          (snd (validate_node_type Samples.remote_up "a.invalid" (start new_validator))))
   = inr {| Validation.valid := true; Validation.suggestion := None |}).
Proof.
  apply (X10_suggestion_is_a_valid_type Samples.remote_up "a.invalid"
           (start new_validator) "a.valid"
           (snd (validate_node_type Samples.remote_up "a.invalid" (start new_validator)))).
  - reflexivity.
  - reflexivity.
Defined.

(** X11.  A first load that fails pins the fallback list for an hour: when
    the registry is empty and the remote fetch fails, the fallback nodes
    are installed and stamped with the time of the failure, and none of the
    calls that follow within an hour of it issues a fetch. *)
Theorem X11_fallback_lasts_an_hour env n r :
  is_fetching (this r) = false ->
  node_registry (this r) = [] ->
  failed (answer (env (calls r))) = true ->
  (forall k, 1 <= k <= n ->
     (now (env (calls r + k)%nat) - answered_at (env (calls r)) < CACHE_DURATION)%Z) ->
  ensured env (S n) r =
  {| this := {| node_registry := add_fallback_nodes [];
                last_fetch_time := answered_at (env (calls r));
                is_fetching := false; fetch_promise := None |};
     calls := calls r + S n;
     fetches := S (fetches r) |}.
Proof.
  intros I E F H. simpl.
  assert (C : cache_valid (now (env (calls r))) (this r) = false).
  { unfold cache_valid, map_size. now rewrite E. }
  rewrite (ensure_stale env r I C), (fetch_failed _ _ _ F). simpl snd.
  rewrite catch_without_data by exact E. simpl leave.
  set (r1 := {| this := _; calls := S (calls r); fetches := S (fetches r) |}).
  destruct (valid_cache_window env (repeat {| Workflow.type := "" |} n) r1) as [_ W].
  - reflexivity.
  - rewrite repeat_length. intros k Hk. subst r1. simpl.
    unfold cache_valid. simpl.
    specialize (H (S k) ltac:(lia)).
    replace (calls r + S k) with (S (calls r + k)) in H by lia.
    apply Z.ltb_lt in H. exact H.
  - rewrite repeat_length in W. rewrite W. subst r1. simpl. unfold leave, set_fetching.
    simpl. f_equal. lia.
Qed.

Lemma X11_fallback_lasts_an_hour_witness :
  ensured Samples.remote_down 4 (start new_validator) =
  {| this := {| node_registry := add_fallback_nodes [];
                last_fetch_time := 7200050;
                is_fetching := false; fetch_promise := None |};
     calls := 4; fetches := 1 |}.
Proof.
  apply (X11_fallback_lasts_an_hour Samples.remote_down 3 (start new_validator)).
  - reflexivity.
  - reflexivity.
  - reflexivity.
  - intros k Hk. reflexivity.
Defined.

End MethodFacts.

Module ResponseFacts.
Import Budgeter Summary BudgeterFacts.

(** *** The three ways [truncateResponse] returns *)

Lemma truncateResponse_cases obj s :
  truncateResponse obj = Some s ->
  exists jsonString,
    stringify obj = Some jsonString /\
    ((estimateTokenCount jsonString <= MAX_RESPONSE_TOKENS /\ s = jsonString)
     \/
     (MAX_RESPONSE_TOKENS < estimateTokenCount jsonString /\
      ((exists truncatedString,
          s = (truncatedString ++ TRUNCATION_MESSAGE)%string /\
          estimateTokenCount truncatedString <= MAX_RESPONSE_TOKENS)
       \/ s = hard_truncate jsonString))).
Proof.
  intros H. unfold truncateResponse in H.
  destruct (stringify obj) as [jsonString|] eqn:S; [|discriminate].
  exists jsonString. split; [reflexivity|].
  destruct (estimateTokenCount jsonString <=? MAX_RESPONSE_TOKENS) eqn:L.
  - apply Nat.leb_le in L. inversion H; subst. left. split; [exact L | reflexivity].
  - apply Nat.leb_gt in L. right. split; [exact L|].
    destruct (if truthy (get_prop obj "data") then get_prop obj "data"
              else JUndefined);
      try (inversion H; now right).
    match type of H with
    | context [stringify ?x] => destruct (stringify x) as [truncatedString|]
    end; [|inversion H; now right].
    destruct (estimateTokenCount truncatedString <=? MAX_RESPONSE_TOKENS) eqn:L2;
      [|inversion H; now right].
    apply Nat.leb_le in L2. inversion H. left. eauto.
Qed.

Lemma truncateResponse_defined obj :
  obj <> JUndefined -> truncateResponse obj <> None.
Proof.
  intros N H. unfold truncateResponse in H.
  destruct (stringify obj) as [jsonString|] eqn:S.
  - revert H.
    destruct (estimateTokenCount jsonString <=? MAX_RESPONSE_TOKENS);
      [discriminate|].
    destruct (if truthy (get_prop obj "data") then get_prop obj "data"
              else JUndefined); try discriminate.
    match goal with
    | |- context [stringify ?x] => destruct (stringify x)
    end; [|discriminate].
    match goal with
    | |- context [?a <=? ?b] => destruct (a <=? b)
    end; discriminate.
  - apply stringify_in_none in S. contradiction.
Qed.

(** X12.  The text [truncateResponse] returns is never longer than 32106
    characters (32000 of the value and the 106 of the marker), and it is
    the whole text of the value exactly when that text has at most 28000
    characters. *)
Theorem X12_response_length obj s :
  truncateResponse obj = Some s ->
  String.length s <= 32 * 1000 + 106 /\
  forall jsonString, stringify obj = Some jsonString ->
    (s = jsonString <-> String.length jsonString <= 28 * 1000).
Proof.
  intros H.
  destruct (truncateResponse_cases obj s H) as (j & S & C). split.
  - destruct C as [[L E]|[L [(t & E & Lt)|E]]]; subst s.
    + apply within_budget_length in L. lia.
    + apply within_budget_length in Lt. rewrite length_append.
      change (String.length TRUNCATION_MESSAGE) with 106. lia.
    + unfold hard_truncate. rewrite length_append, length_substring_0.
      change (String.length TRUNCATION_MESSAGE) with 106.
      unfold MAX_RESPONSE_TOKENS. lia.
  - intros j' S'. assert (j' = j) by congruence. subst j'.
    rewrite <- within_budget_length. split.
    + intros ->. destruct C as [[L _]|[L C]]; [exact L|]. exfalso.
      pose proof (stringify_no_marker obj j S) as N.
      destruct C as [(t & E & _)|E]; rewrite E in N.
      * now rewrite endsWith_append in N.
      * unfold hard_truncate in N. now rewrite endsWith_append in N.
    + intros L. pose proof (truncateResponse_pass obj j S L). congruence.
Qed.

Lemma X12_response_length_witness :
  String.length (dquote ++ "ok" ++ dquote) <= 32 * 1000 + 106 /\
  forall jsonString, stringify (JStr "ok") = Some jsonString ->
    ((dquote ++ "ok" ++ dquote)%string = jsonString
     <-> String.length jsonString <= 28 * 1000).
Proof.
  apply (X12_response_length (JStr "ok")). reflexivity.
Defined.

(** *** [truncateExecutionItem] *)

Lemma lookup_absent props k :
  (forall entry, In entry props -> fst entry <> k) -> lookup props k = JUndefined.
Proof.
  induction props as [|[k' x] props IH]; intros H; simpl; [reflexivity|].
  destruct (String.eqb_spec k' k) as [E|E].
  - exfalso. apply (H (k', x)); [now left | exact E].
  - apply IH. intros entry Hin. apply H. now right.
Qed.

(** X13.  [truncateExecutionItem] returns a falsy item as it is.  Of any
    other item it keeps the seven fields [id], [mode], [status],
    [startedAt], [stoppedAt], [workflowId] and [waitTill] with their
    values and nothing else of it, in particular not [data]; it adds
    [dataSummary] exactly when [data] is an object. *)
Theorem X13_projection_keeps_seven_fields execution :
  (truthy execution = false -> truncateExecutionItem execution = execution) /\
  (truthy execution = true ->
     (forall k, In k kept_fields ->
        get_prop (truncateExecutionItem execution) k = get_prop execution k) /\
     (forall k, ~ In k kept_fields -> k <> "dataSummary" ->
        get_prop (truncateExecutionItem execution) k = JUndefined) /\
     get_prop (truncateExecutionItem execution) "data" = JUndefined /\
     (get_prop (truncateExecutionItem execution) "dataSummary" <> JUndefined <->
      truthy (get_prop execution "data") && is_object (get_prop execution "data") = true)).
Proof.
  unfold truncateExecutionItem. split; intros T; rewrite T; simpl negb; cbv iota.
  - reflexivity.
  - destruct (truthy (get_prop execution "data") && is_object (get_prop execution "data"));
      (split; [|split; [|split]]).
    + intros k Hin. unfold kept_fields in Hin. simpl in Hin.
      repeat (destruct Hin as [<-|Hin]; [reflexivity|]). contradiction.
    + intros k Hk Hd. unfold get_prop. apply lookup_absent.
      intros entry Hin E. simpl in Hin.
      repeat (destruct Hin as [<-|Hin];
              [simpl in E; subst k;
               try (apply Hk; unfold kept_fields; simpl; tauto); congruence|]).
      contradiction.
    + reflexivity.
    + simpl. split; [reflexivity | discriminate].
    + intros k Hin. unfold kept_fields in Hin. simpl in Hin.
      repeat (destruct Hin as [<-|Hin]; [reflexivity|]). contradiction.
    + intros k Hk Hd. unfold get_prop. apply lookup_absent.
      intros entry Hin E. simpl in Hin.
      repeat (destruct Hin as [<-|Hin];
              [simpl in E; subst k;
               try (apply Hk; unfold kept_fields; simpl; tauto); congruence|]).
      contradiction.
    + reflexivity.
    + simpl. split; [congruence | discriminate].
Qed.

Lemma X13_projection_keeps_seven_fields_witness :
  get_prop (truncateExecutionItem (JObj [("id", JNum 7); ("data", JObj []); ("x", JNull)]))
    "data" = JUndefined.
Proof.
  apply (proj2 (X13_projection_keeps_seven_fields
                  (JObj [("id", JNum 7); ("data", JObj []); ("x", JNull)]))).
  reflexivity.
Defined.

(** *** [createSummaryResponse] *)

Lemma summary_records_none items :
  summary_records items = None <->
  exists item, In item items /\ (item = JNull \/ item = JUndefined).
Proof.
  induction items as [|exec rest IH]; simpl.
  - split; [discriminate | intros (item & [] & _)].
  - destruct (summary_record exec) as [record|] eqn:R.
    + destruct (summary_records rest) as [records|].
      * split; [discriminate|].
        intros (item & [<-|Hin] & H).
        -- destruct H as [-> | ->]; discriminate.
        -- assert (G : Some records = None) by (apply IH; eauto).
           discriminate.
      * split; [|reflexivity]. intros _.
        destruct (proj1 IH eq_refl) as (item & Hin & H). eauto.
    + split; [|reflexivity]. intros _. exists exec. split; [now left|].
      destruct exec; try discriminate; auto.
Qed.

Lemma truthy_property e k : truthy (get_prop e k) = true -> truthy e = true.
Proof. destruct e; simpl; try discriminate. reflexivity. Qed.

(** X14.  [createSummaryResponse] throws exactly when [executions.data] is
    truthy and either is not an array or holds a [null]; it returns
    [undefined] instead of a string for [undefined] only.  On the inputs
    on which it throws, [truncateResponse] returns a string. *)
Theorem X14_summary_throws_on_null_items executions :
  (createSummaryResponse executions = Throws <->
   truthy (get_prop executions "data") = true /\
   match get_prop executions "data" with
   | JArr items => exists item, In item items /\ (item = JNull \/ item = JUndefined)
   | _ => True
   end) /\
  (createSummaryResponse executions = Returns None <-> executions = JUndefined) /\
  (createSummaryResponse executions = Throws -> truncateResponse executions <> None).
Proof.
  assert (A : createSummaryResponse executions = Throws <->
              truthy (get_prop executions "data") = true /\
              match get_prop executions "data" with
              | JArr items =>
                  exists item, In item items /\ (item = JNull \/ item = JUndefined)
              | _ => True
              end).
  { unfold createSummaryResponse.
    destruct (truthy (get_prop executions "data")) eqn:D.
    - rewrite (truthy_property _ _ D). simpl.
      destruct (get_prop executions "data") as [| |b|n|t|items|props];
        try (split; [auto | reflexivity]).
      rewrite <- summary_records_none.
      destruct (summary_records items); split; try discriminate; auto.
      + intros [_ H]. discriminate.
    - rewrite orb_true_r. split; [discriminate | intros [H _]; discriminate]. }
  split; [exact A|]. split.
  - unfold createSummaryResponse.
    destruct (negb (truthy executions) || negb (truthy (get_prop executions "data")))
      eqn:C.
    + split.
      * intros H. inversion H as [S]. now apply stringify_in_none in S.
      * intros ->. reflexivity.
    + split.
      * destruct (get_prop executions "data"); try discriminate.
        destruct (summary_records items); discriminate.
      * intros ->. discriminate.
  - intros H. apply A in H as [D _]. apply truncateResponse_defined.
    intros ->. discriminate.
Qed.

Lemma X14_summary_throws_on_null_items_witness :
  truncateResponse Samples.executions_with_null <> None.
Proof.
  apply (proj2 (proj2 (X14_summary_throws_on_null_items Samples.executions_with_null))).
  reflexivity.
Defined.

End ResponseFacts.

Module DocsFacts.
Import Docs.

Example split_whitespace_inner : split_whitespace "get  all nodes" = ["get"; "all"; "nodes"].
Proof. reflexivity. Qed.

Example split_whitespace_edges : split_whitespace " get " = [""; "get"; ""].
Proof. reflexivity. Qed.

Example split_whitespace_empty : split_whitespace "" = [""].
Proof. reflexivity. Qed.

Example excerpt_of_second_line :
  extractExcerpt ("# Title" ++ Budgeter.nl ++ "  The Webhook node  " ++ Budgeter.nl ++ "more")
    "webhook"
  = "The Webhook node".
Proof. reflexivity. Qed.


Lemma length_clip text whole : String.length (clip text whole) <= 203.
Proof.
  unfold clip. cbv zeta.
  rewrite BudgeterFacts.length_append, BudgeterFacts.length_substring_0.
  destruct (200 <? String.length whole);
    [change (String.length "...") with 3 | change (String.length "") with 0]; lia.
Qed.

(** X15.  An excerpt never has more than 203 characters: 200 of the text
    and the three of the ellipsis. *)
Theorem X15_excerpt_is_short content query :
  String.length (extractExcerpt content query) <= 203.
Proof.
  unfold extractExcerpt. cbv zeta.
  destruct (find (mentions (split_whitespace query)) (split_lines content));
    apply length_clip.
Qed.

(** *** Empty words *)

Lemma includes_empty s : includes s "" = true.
Proof. destruct s; reflexivity. Qed.

Lemma mentions_empty_word words line : In "" words -> mentions words line = true.
Proof.
  intros H. unfold mentions. apply existsb_exists.
  exists "". split; [exact H | apply includes_empty].
Qed.

Lemma split_spaces_trailing s : forall c in_run current,
  is_space c = true -> (in_run = true -> current = "") ->
  In "" (split_spaces in_run current (s ++ String c "")).
Proof.
  induction s as [|a s IH]; intros c in_run current Hc Inv; simpl.
  - rewrite Hc. destruct in_run.
    + left. now rewrite Inv.
    + right. now left.
  - destruct (is_space a).
    + destruct in_run; [apply IH; auto | right; apply IH; auto].
    + apply IH; [exact Hc | discriminate].
Qed.

Lemma blank_word query :
  query = "" \/
  (exists c r, query = String c r /\ is_space c = true) \/
  (exists r c, query = (r ++ String c "")%string /\ is_space c = true) ->
  In "" (split_whitespace query).
Proof.
  unfold split_whitespace.
  intros [->|[(c & r & -> & H)|(r & c & -> & H)]].
  - now left.
  - simpl. rewrite H. now left.
  - apply split_spaces_trailing; [exact H | discriminate].
Qed.

Lemma split_line_feeds_first s : forall current,
  exists first rest, split_line_feeds current s = first :: rest.
Proof.
  induction s as [|c s IH]; intros current; simpl; eauto.
  destruct (Ascii.eqb c "010"%char); eauto.
Qed.

(** X16.  A query that is empty, or that starts or ends with white space,
    has an empty word, which every line contains: the excerpt is then
    taken from the first line of the document, whatever the document and
    the other words are. *)
Theorem X16_blank_query_takes_first_line content query :
  query = "" \/
  (exists c r, query = String c r /\ is_space c = true) \/
  (exists r c, query = (r ++ String c "")%string /\ is_space c = true) ->
  exists first rest,
    split_lines content = first :: rest /\
    extractExcerpt content query = clip (trim first) first.
Proof.
  intros H. apply blank_word in H.
  destruct (split_line_feeds_first content "") as (first & rest & E).
  exists first, rest. split; [exact E|].
  unfold extractExcerpt, split_lines. cbv zeta. rewrite E. simpl.
  now rewrite (mentions_empty_word _ first H).
Qed.

Lemma X16_blank_query_takes_first_line_witness :
  exists first rest,
    split_lines ("  Intro  " ++ Budgeter.nl ++ "The Webhook node") = first :: rest /\
    extractExcerpt ("  Intro  " ++ Budgeter.nl ++ "The Webhook node") "webhook "
    = clip (trim first) first.
Proof.
  apply (X16_blank_query_takes_first_line
           ("  Intro  " ++ Budgeter.nl ++ "The Webhook node") "webhook ").
  right. right. exists "webhook", " "%char. split; reflexivity.
Defined.

(** *** Short documents *)

Lemma split_line_feeds_single s : forall current,
  (forall c, In c (list_ascii_of_string s) -> c <> "010"%char) ->
  split_line_feeds current s = [(current ++ s)%string].
Proof.
  induction s as [|c s IH]; intros current H; simpl.
  - f_equal. clear. induction current; simpl; [|rewrite <- IHcurrent]; reflexivity.
  - destruct (Ascii.eqb_spec c "010"%char) as [E|E].
    + exfalso. apply (H c); [now left | exact E].
    + rewrite IH by (intros; apply H; now right).
      now rewrite BudgeterFacts.append_assoc.
Qed.

Lemma substring_whole n : forall s, String.length s <= n -> substring 0 n s = s.
Proof.
  induction n as [|n IH]; intros [|c s] H; simpl in *; try reflexivity; try lia.
  f_equal. apply IH. lia.
Qed.

Lemma append_empty s : (s ++ "")%string = s.
Proof. induction s as [|c s IH]; simpl; [|rewrite IH]; reflexivity. Qed.

(** X17.  A document of one line and at most 200 characters, without
    white space at either end, is its own excerpt for every query. *)
Theorem X17_short_document_is_its_excerpt content query :
  (forall c, In c (list_ascii_of_string content) -> c <> "010"%char) ->
  String.length content <= 200 ->
  trim content = content ->
  extractExcerpt content query = content.
Proof.
  intros L H T. unfold extractExcerpt, split_lines. cbv zeta.
  rewrite (split_line_feeds_single content "" L). simpl.
  assert (C : clip content content = content).
  { unfold clip. cbv zeta. rewrite (substring_whole 200 content H).
    apply Nat.ltb_ge in H. rewrite H. apply append_empty. }
  destruct (mentions (split_whitespace query) content); [rewrite T|]; exact C.
Qed.

Lemma X17_short_document_is_its_excerpt_witness :
  extractExcerpt "The Webhook node" "http request" = "The Webhook node".
Proof.
  apply (X17_short_document_is_its_excerpt "The Webhook node" "http request").
  - intros c H. simpl in H.
    repeat (destruct H as [<-|H]; [discriminate|]). contradiction.
  - simpl. lia.
  - reflexivity.
Defined.

End DocsFacts.


Module ClientFacts.
Import Registry Api Client ApiFacts.

Example rejected_batch :
  fst (validate_nodes Samples.remote_up (Some Samples.batch) (start new_validator)) =
  inl (NodeValidationFailed
         ("Node validation failed: Invalid node type " ++ Budgeter.dquote ++ "a.invalid"
          ++ Budgeter.dquote ++ ". Did you mean " ++ Budgeter.dquote ++ "a.valid"
          ++ Budgeter.dquote ++ "?")).
Proof. reflexivity. Qed.

Lemma filter_nil_iff {A : Type} (f : A -> bool) (l : list A) :
  filter f l = [] <-> forall x, In x l -> f x = false.
Proof.
  induction l as [|a l IH]; simpl.
  - split; [intros _ x [] | reflexivity].
  - destruct (f a) eqn:E.
    + split; [discriminate|]. intros H. specialize (H a (or_introl eq_refl)). congruence.
    + rewrite IH. split.
      * intros H x [<-|Hx]; auto.
      * intros H x Hx. apply H. now right.
Qed.

(** X18.  The node check of [createValidatedWorkflow] does not touch the
    validator for a workflow without nodes.  For a workflow with nodes,
    when the validator is idle and the cache left by the first refresh
    stays valid during the check, the workflow passes exactly when the
    type of each of its nodes is a key of the registry; otherwise the
    method throws its own error. *)
Theorem X18_workflow_passes_iff_all_types_known env nodes r :
  validate_nodes env None r = (inr tt, r) /\
  validate_nodes env (Some []) r = (inr tt, r) /\
  (nodes <> [] ->
   is_fetching (this r) = false ->
   (forall k, k < List.length nodes ->
      cache_valid
        (now (env (calls (snd (ensure_node_registry_is_loaded env r)) + k)))
        (this (snd (ensure_node_registry_is_loaded env r))) = true) ->
   (fst (validate_nodes env (Some nodes) r) = inr tt <->
    forall node, In node nodes ->
      map_has (node_registry (this (snd (ensure_node_registry_is_loaded env r))))
        (Workflow.type node) = true) /\
   (fst (validate_nodes env (Some nodes) r) <> inr tt ->
    exists message,
      fst (validate_nodes env (Some nodes) r) = inl (NodeValidationFailed message))).
Proof.
  split; [reflexivity|]. split; [reflexivity|].
  intros N I H.
  set (r1 := snd (ensure_node_registry_is_loaded env r)) in *.
  pose proof (ensure_counts env r) as (_ & _ & Hi). simpl in Hi. specialize (Hi I).
  fold r1 in Hi.
  destruct (valid_cache_window env nodes r1 Hi H) as [V _].
  rewrite verdicts_one_registry in V.
  unfold validate_nodes. destruct nodes as [|node0 rest]; [congruence|].
  rewrite validate_workflow_nodes_run. fold r1. rewrite V.
  set (f := fun node => negb (map_has (node_registry (this r1)) (Workflow.type node))).
  pose proof (filter_nil_iff f (node0 :: rest)) as Fi.
  destruct (filter f (node0 :: rest)) as [|bad others] eqn:E; simpl.
  - split.
    + split; [|reflexivity]. intros _ node Hin.
      pose proof (proj1 Fi eq_refl node Hin) as G. unfold f in G.
      now apply negb_false_iff in G.
    + congruence.
  - split.
    + split; [discriminate|]. intros A. exfalso.
      assert (G : bad :: others = []).
      { apply Fi. intros x Hx. unfold f. now rewrite (A x Hx). }
      discriminate.
    + intros _. eexists. reflexivity.
Qed.

Lemma X18_workflow_passes_iff_all_types_known_witness :
  (fst (validate_nodes Samples.remote_up (Some Samples.batch) (start new_validator))
   = inr tt <->
   forall node, In node Samples.batch ->
     map_has (node_registry (this (snd (ensure_node_registry_is_loaded Samples.remote_up
                                          (start new_validator)))))
       (Workflow.type node) = true) /\
  (fst (validate_nodes Samples.remote_up (Some Samples.batch) (start new_validator))
   <> inr tt ->
   exists message,
     fst (validate_nodes Samples.remote_up (Some Samples.batch) (start new_validator))
     = inl (NodeValidationFailed message)).
Proof.
  apply (proj2 (proj2 (X18_workflow_passes_iff_all_types_known
                         Samples.remote_up Samples.batch (start new_validator)))).
  - discriminate.
  - reflexivity.
  - intros k Hk.
    destruct k as [|[|[|k]]]; [reflexivity | reflexivity | reflexivity |].
    simpl in Hk. lia.
Defined.

(** *** The address of the catalog *)

Lemma strip_added_slash s : strip_trailing_slash (s ++ "/") = s.
Proof.
  induction s as [|c s IH]; [reflexivity|].
  simpl. rewrite IH.
  destruct (s ++ "/")%string eqn:E; [|reflexivity].
  destruct s; discriminate.
Qed.

Lemma strip_length s :
  String.length s <= String.length (strip_trailing_slash s) + 1 /\
  String.length (strip_trailing_slash s) <= String.length s.
Proof.
  induction s as [|c s IH]; simpl; [lia|].
  destruct s as [|d s].
  - destruct (Ascii.eqb c "/"%char); simpl; lia.
  - simpl in *. lia.
Qed.

(** X19.  The constructors drop a trailing slash of the base address: a
    validator made with [u/] asks [u/types/nodes.json], and so does the
    validator of a client made with [u//], since the client strips the
    address before it hands it on.  At most one character is dropped at a
    time. *)
Theorem X19_trailing_slash_is_dropped u :
  registry_url (u ++ "/") = (u ++ "/types/nodes.json")%string /\
  client_registry_url (u ++ "//") = (u ++ "/types/nodes.json")%string /\
  String.length u <= String.length (strip_trailing_slash u) + 1.
Proof.
  unfold client_registry_url, registry_url. split; [|split].
  - now rewrite strip_added_slash.
  - replace (u ++ "//")%string with ((u ++ "/") ++ "/")%string
      by (rewrite BudgeterFacts.append_assoc; reflexivity).
    now rewrite !strip_added_slash.
  - apply strip_length.
Qed.

End ClientFacts.

Module SuggestionFacts.
Import Similarity SimilarityFacts DistanceFacts ScoreFacts.

(** X20.  A suggestion is close to the query: its distance from the query
    (ignoring letter case) is less than 40 percent of the greater of the
    two lengths, and so the shorter of the two strings has more than 60
    percent of the length of the longer. *)
Theorem X20_suggestion_is_close q keys c :
  find_similar q keys = Some c ->
  exists d,
    levenshtein_distance (toLowerCase q) (toLowerCase c) = Some d /\
    5 * d < 2 * Nat.max (String.length q) (String.length c) /\
    3 * Nat.max (String.length q) (String.length c)
    < 5 * Nat.min (String.length q) (String.length c).
Proof.
  intros F.
  apply find_similar_some in F as (before & after & s & _ & Hs & Ht & _).
  set (d := lev (list_ascii_of_string (toLowerCase q))
                (list_ascii_of_string (toLowerCase c))).
  exists d. split; [apply levenshtein_distance_lev|].
  rewrite calculate_similarity_lev in Hs. fold d in Hs.
  set (m := Nat.max (String.length q) (String.length c)) in *.
  destruct (m =? 0) eqn:Z; [discriminate|]. apply Nat.eqb_neq in Z.
  inversion Hs; subst s; clear Hs.
  assert (M : 0 < m) by lia.
  assert (D : 5 * d < 2 * m).
  { rewrite (score_as_fraction d m M) in Ht.
    unfold threshold, Qlt in Ht. cbn [Qnum Qden] in Ht.
    rewrite <- (of_nat_pos m M) in Ht. lia. }
  split; [exact D|].
  pose proof (lev_lower (list_ascii_of_string (toLowerCase q))
                (list_ascii_of_string (toLowerCase c))) as L.
  rewrite !length_list_ascii, !length_toLowerCase in L. fold d in L.
  subst m. lia.
Qed.

Lemma X20_suggestion_is_close_witness :
  exists d,
    levenshtein_distance (toLowerCase "n8n-nodes-base.httpReqeust")
      (toLowerCase "n8n-nodes-base.httpRequest") = Some d /\
    5 * d < 2 * Nat.max (String.length "n8n-nodes-base.httpReqeust")
                (String.length "n8n-nodes-base.httpRequest") /\
    3 * Nat.max (String.length "n8n-nodes-base.httpReqeust")
          (String.length "n8n-nodes-base.httpRequest")
    < 5 * Nat.min (String.length "n8n-nodes-base.httpReqeust")
            (String.length "n8n-nodes-base.httpRequest").
Proof.
  apply (X20_suggestion_is_close "n8n-nodes-base.httpReqeust"
           ["n8n-nodes-base.start"; "n8n-nodes-base.httpRequest"; "n8n-nodes-base.set"]).
  vm_compute. reflexivity.
Defined.

End SuggestionFacts.
